(** * yt-archiver: a shallow embedding of the sync core

    The development follows the layout of the Python package
    [yt_archiver]: [config.py] (module [Config]), [yt_api.py] (module
    [YTApi]), [archiver.py] (module [Archiver]) and [cli.py] (module
    [CLI]).  The parts of the Python standard library that the package
    calls ([re.search], [glob.glob], [os.listdir], [os.unlink]) are
    modelled in the modules [Re], [Glob] and [OS]; the external
    collaborators ([scrapetube], the downloader block of the
    configuration and its command, the Unicode tables behind [\w]) are
    the fields of the class [Externals]. *)

From Stdlib Require Import NArith ZArith Ascii String Bool Lia.
From stdpp Require Import gmap strings list fin_maps sets pretty.

(** ** Python strings

    A Python [str] is a sequence of Unicode code points. *)

Abbreviation str := (list N) (only parsing).

Definition of_string (s : string) : str :=
  (fun a : ascii => N_of_ascii a) <$> list_ascii_of_string s.

Definition c_nul      : N := 0.   (* '\0' *)
Definition c_newline  : N := 10.  (* '\n' *)
Definition c_bang     : N := 33.  (* '!' *)
Definition c_star     : N := 42.  (* '*' *)
Definition c_hyphen   : N := 45.  (* '-' *)
Definition c_dot      : N := 46.  (* '.' *)
Definition c_slash    : N := 47.  (* '/' *)
Definition c_question : N := 63.  (* '?' *)
Definition c_lbracket : N := 91.  (* '[' *)
Definition c_rbracket : N := 93.  (* ']' *)
Definition c_underscore : N := 95. (* '_' *)

(** ** Exceptions and generators *)

(** The exceptions (all of them subclasses of [Exception]) that the
    calls of the package raise. *)
Inductive exn :=
  | OSError (path : list str)
  | RemoteLookupError (channel_id : str)
  | KeyError (key : str)
  | IndexError
  | TypeError
  | ValueError.

(** A call returns a value or raises. *)
Inductive outcome (A : Type) :=
  | Return (a : A)
  | Raised (e : exn).
Arguments Return {A} a.
Arguments Raised {A} e.

(** A finite generator yields items and then either stops or raises. *)

Inductive feed (A : Type) :=
  | Yield (a : A) (rest : feed A)
  | StopIteration
  | Raises (e : exn).
Arguments Yield {A} a rest.
Arguments StopIteration {A}.
Arguments Raises {A} e.

(** [yields l tl] yields the items of [l] and goes on as [tl]. *)
Definition yields {A} (l : list A) (tl : feed A) : feed A := foldr Yield tl l.

(** ** External collaborators *)

Record video := Video { videoId : str }.

(** One entry of a search result of [scrapetube.get_search], read through
    the four [glom] paths of [YTApi]; a missing path gives [None]. *)
Record raw_result := RawResult {
  page_type : option str;
  browse_id : option str;
  byline_text : option str;
  canonical_base_url : option str
}.

(** A directory entry: what [os.path.isfile] answers for it and whether
    [os.unlink] succeeds on it. *)
Record attrs := Attrs { isfile : bool; unlinkable : bool }.

(** The sub-directories of the configured output path that can be listed,
    by name; a directory is the map of its entries. *)
Abbreviation filesystem := (gmap (list N) (gmap (list N) attrs)) (only parsing).

(** A path that [glob.glob] returns: an entry [file] of the
    sub-directory [d] of the output path, or a path to a file that is in
    none of these directories, with whether [os.unlink] succeeds on
    it. *)
Inductive hit :=
  | InDir (d file : str)
  | Elsewhere (path : str) (unlink_ok : bool).

Class Externals := {
  (** [str.isalnum] on the code points from 128 on (the Unicode tables). *)
  uni_alnum : N → bool;
  (** whether a character is in the bracket expression [[stuff]] of an
      [fnmatch] pattern *)
  bracket_mem : str → N → bool;
  (** [scrapetube.get_channel(channel_id)] *)
  get_channel : str → feed video;
  (** [scrapetube.get_search(term)] *)
  get_search : str → feed raw_result;
  (** [urllib.parse.urljoin(base, url)] *)
  urljoin : str → option str → str;
  (** the [format] of the downloader command with the downloader block,
      [video_id] and [channel_name], and the [subprocess.call] of the
      result: whether the two calls return (the exit status is dropped)
      or one of them raises, as [format] does for a field that the
      block lacks and [call] for a command with a NUL, and the
      directories afterwards *)
  run_downloader : str → str → filesystem → outcome unit * filesystem;
  (** [downloader["output_path"]], a string *)
  output_path : str;
  (** [glob.glob(os.path.join(output_path, dirname, basename))] for the
      path names that [Glob.glob] does not write out (see
      [Glob.modelled]) *)
  glob_elsewhere : str → str → filesystem → outcome (list hit)
}.

(** ** The regular expressions of [re], as far as [archiver.py] uses them *)

Module Re.
Section Re.
Context `{!Externals}.

(** [\w] on [str] patterns: alphanumeric or underscore. *)
Definition ascii_alnum (c : N) : bool :=
  ((48 <=? c) && (c <=? 57) || (65 <=? c) && (c <=? 90)
   || (97 <=? c) && (c <=? 122))%N.

Definition is_word (c : N) : bool :=
  if (c <? 128)%N then ascii_alnum c || (c =? c_underscore)%N
  else uni_alnum c.

(** [[\w-]] *)
Definition is_word_or_hyphen (c : N) : bool :=
  is_word c || (c =? c_hyphen)%N.

Inductive regex :=
  | Chr (c : N)               (* a literal character, escaped or not *)
  | Plus (p : N → bool)       (* [C+] for a character class [C]: greedy *)
  | Cat (r1 r2 : regex)       (* concatenation *)
  | Group (r : regex)         (* [( r )], group 1 *)
  | Dollar.                   (* [$] *)

(** [$] without [re.MULTILINE]: at the end of the string, or just before
    a newline that ends the string. *)
Definition at_end (s : str) : bool :=
  match s with
  | [] => true
  | [c] => (c =? c_newline)%N
  | _ => false
  end.

(** [C*], greedy: take as many characters as possible, give one back
    each time the rest of the pattern fails. *)
Fixpoint star {A} (p : N → bool) (k : str → option A) (s : str) : option A :=
  match s with
  | c :: s' =>
      if p c then
        match star p k s' with
        | Some a => Some a
        | None => k s
        end
      else k s
  | [] => k s
  end.

(** The backtracking matcher: [run r s g k] matches [r] at the start of
    [s]; [g] is what group 1 holds so far and [k] matches the rest of
    the pattern. *)
Fixpoint run {A} (r : regex) (s : str) (g : option str)
    (k : str → option str → option A) : option A :=
  match r with
  | Chr c =>
      match s with
      | d :: s' => if (c =? d)%N then k s' g else None
      | [] => None
      end
  | Plus p =>
      match s with
      | d :: s' => if p d then star p (fun rest => k rest g) s' else None
      | [] => None
      end
  | Cat r1 r2 => run r1 s g (fun s' g' => run r2 s' g' k)
  | Group r1 =>
      run r1 s g (fun s' _ => k s' (Some (take (length s - length s') s)))
  | Dollar => if at_end s then k s g else None
  end.

(** A match object, as far as it is used: [group(1)]. *)
Record match_object := Match { group1 : option str }.

(** [re.match]: a match at the start of the string. *)
Definition match_ (r : regex) (s : str) : option match_object :=
  run r s None (fun _ g => Some (Match g)).

(** [re.search]: the first position at which the pattern matches. *)
Fixpoint search (r : regex) (s : str) : option match_object :=
  match match_ r s with
  | Some mo => Some mo
  | None =>
      match s with
      | [] => None
      | _ :: s' => search r s'
      end
  end.
End Re.
End Re.

(** ** [fnmatch] and [glob] *)

Module Glob.
Section Glob.
Context `{!Externals}.

(** [glob.has_magic]: the pattern holds one of [*], [?] and [[]. *)
Definition is_magic (c : N) : bool :=
  ((c =? c_star) || (c =? c_question) || (c =? c_lbracket))%N.

Definition has_magic (s : str) : bool := existsb is_magic s.

(** [glob._ishidden] *)
Definition ishidden (s : str) : bool :=
  match s with
  | c :: _ => (c =? c_dot)%N
  | [] => false
  end.

Inductive token :=
  | TStar                     (* [*]: any string *)
  | TAny                      (* [?]: any one character *)
  | TClass (stuff : str)      (* [[stuff]] *)
  | TLit (c : N).             (* the character itself *)

Fixpoint find_rbracket (s : str) : option nat :=
  match s with
  | [] => None
  | c :: s' => if (c =? c_rbracket)%N then Some 0 else S <$> find_rbracket s'
  end.

(** Where the bracket expression that opens just before [s] closes, as
    [fnmatch.translate] looks for it: a leading [!] and a [[]] right
    after it belong to the expression. *)
Definition bracket_end (s : str) : option nat :=
  let j1 := match s with
            | c :: _ => if (c =? c_bang)%N then 1 else 0
            | [] => 0
            end in
  let j2 := match drop j1 s with
            | c :: _ => if (c =? c_rbracket)%N then S j1 else j1
            | [] => j1
            end in
  (λ k, j2 + k) <$> find_rbracket (drop j2 s).

(** [fnmatch.translate], to tokens; [skip] counts the characters of a
    bracket expression still to pass over. *)
Fixpoint translate_from (skip : nat) (pat : str) : list token :=
  match pat with
  | [] => []
  | c :: rest =>
      match skip with
      | S n => translate_from n rest
      | O =>
          if (c =? c_star)%N then TStar :: translate_from 0 rest
          else if (c =? c_question)%N then TAny :: translate_from 0 rest
          else if (c =? c_lbracket)%N then
            match bracket_end rest with
            | Some j => TClass (take j rest) :: translate_from (S j) rest
            | None => TLit c :: translate_from 0 rest
            end
          else TLit c :: translate_from 0 rest
      end
  end.

Definition translate (pat : str) : list token := translate_from 0 pat.

(** A full match of the name against the tokens. *)
Fixpoint matches (ts : list token) (name : str) : bool :=
  match ts with
  | [] => match name with [] => true | _ => false end
  | TStar :: ts' =>
      (fix any_suffix (s : str) : bool :=
         matches ts' s
         || match s with
            | [] => false
            | _ :: s' => any_suffix s'
            end) name
  | TAny :: ts' =>
      match name with
      | _ :: s' => matches ts' s'
      | [] => false
      end
  | TClass stuff :: ts' =>
      match name with
      | c :: s' => bracket_mem stuff c && matches ts' s'
      | [] => false
      end
  | TLit c :: ts' =>
      match name with
      | d :: s' => (c =? d)%N && matches ts' s'
      | [] => false
      end
  end.

(** [fnmatch.fnmatch] where [os.path.normcase] changes nothing. *)
Definition fnmatch (name pat : str) : bool := matches (translate pat) name.

(** [glob._glob1]: the names of a directory that match the pattern; a
    name that starts with a dot is matched only by a pattern that does. *)
Definition glob1 (names : list str) (pattern : str) : list str :=
  let names := if ishidden pattern then names
               else filter (λ x, ishidden x = false) names in
  filter (λ x, fnmatch x pattern = true) names.

Definition has_char (c : N) (s : str) : bool := existsb (N.eqb c) s.

Definition is_empty (s : str) : bool :=
  match s with [] => true | _ => false end.

(** The characters that the system calls take in a path: for a NUL
    [os.scandir] raises [ValueError], for a surrogate
    [UnicodeEncodeError], one of its subclasses, and [glob] passes over
    [OSError] only. *)
Definition is_path_char (c : N) : bool :=
  (negb (c =? c_nul) && negb ((55296 <=? c) && (c <=? 57343)))%N.

Definition path_safe (s : str) : bool := forallb is_path_char s.

(** One path component that is not [.] or [..]: what [os.scandir] gives
    as the name of an entry of a directory. *)
Definition is_entry_name (x : str) : bool :=
  negb (is_empty x) && negb (has_char c_slash x) && negb (has_char c_nul x)
  && negb (bool_decide (x = [c_dot]))
  && negb (bool_decide (x = [c_dot; c_dot])).

(** The directory parts [os.path.join(output_path, dirname)] for which
    [glob] is written out below.  Both parts are made of path
    characters.  [output_path] holds no magic, so that the directories
    are looked for in [output_path] only.  [dirname] is one path
    component: the name of a sub-directory of [output_path], or a
    pattern for such names. *)
Definition modelled_dir (output_path dirname : str) : bool :=
  negb (has_magic output_path) && path_safe output_path
  && is_entry_name dirname && path_safe dirname.

(** The last components for which it is written out: without separator,
    so that [os.path.split] cuts the path name just before them, and
    without NUL. *)
Definition modelled_base (basename : str) : bool :=
  negb (has_char c_slash basename) && negb (has_char c_nul basename).

Definition modelled (output_path dirname basename : str) : bool :=
  modelled_dir output_path dirname && modelled_base basename.

(** The directories of [glob._iglob] for the directory part: [dirname]
    itself when it has no magic, else the directories in [output_path]
    whose name [dirname] matches. *)
Definition glob_dirs (fs : filesystem) (dirname : str) : list str :=
  if has_magic dirname
  then glob1 (filter (λ x, is_entry_name x = true) (map_to_list fs).*1) dirname
  else [dirname].

(** The matches in one of these directories; a directory that cannot be
    listed yields nothing. *)
Definition glob_in (fs : filesystem) (basename d : str) : list hit :=
  match fs !! d with
  | Some entries => InDir d <$> glob1 (map_to_list entries).*1 basename
  | None => []
  end.

(** [glob.glob(os.path.join(output_path, dirname, basename))] where
    [basename] has magic. *)
Definition glob (fs : filesystem) (dirname basename : str)
    : outcome (list hit) :=
  if modelled output_path dirname basename
  then Return (glob_dirs fs dirname ≫= glob_in fs basename)
  else glob_elsewhere dirname basename fs.
End Glob.
End Glob.

(** ** The process state and the monad of the methods *)

(** [Config.Channel]: a named tuple [name id keep], [keep] defaulting to
    [None]. *)
Record Channel := MkChannel {
  name : str;
  id : str;
  keep : option Z
}.

(** The parsed YAML document [Config.config], as far as the channel list
    goes: the key ["channels"] may be missing.  A stored channel is the
    dictionary of a [Channel] without the key ["keep"] when it is [None].
    The ["downloader"] block does not change; it stands behind
    [run_downloader] and [output_path]. *)
Record config_dict := ConfigDict {
  channels_key : option (list Channel)
}.

(** What the program prints. *)
Inductive event :=
  | AlreadyInArchive (channel_id : str)
  | ErrorListing (path : list str) (e : exn)
  | Deleted (path : list str)
  | ErrorDeleting (path : list str) (e : exn)
  | SyncingChannel (channel_name : str)
  | Searching
  | SearchTable (rows : list (option str * str * option str)).

Record world := World {
  config : config_dict;        (* [Config.config], in memory *)
  config_file : config_dict;   (* the YAML file at [Config.path] *)
  fs : filesystem;             (* below the output path *)
  stdout : list event
}.

Definition set_config (c : config_dict) (w : world) : world :=
  World c (config_file w) (fs w) (stdout w).
Definition set_config_file (c : config_dict) (w : world) : world :=
  World (config w) c (fs w) (stdout w).
Definition set_fs (f : filesystem) (w : world) : world :=
  World (config w) (config_file w) f (stdout w).
Definition set_stdout (o : list event) (w : world) : world :=
  World (config w) (config_file w) (fs w) o.

Definition M (A : Type) : Type := world → outcome A * world.

Definition ret {A} (a : A) : M A := λ w, (Return a, w).

Definition bind {A B} (m : M A) (f : A → M B) : M B :=
  λ w, match m w with
       | (Return a, w') => f a w'
       | (Raised e, w') => (Raised e, w')
       end.

Definition raise {A} (e : exn) : M A := λ w, (Raised e, w).

(** [try: m  except Exception as e: h e] *)
Definition try_except {A} (m : M A) (h : exn → M A) : M A :=
  λ w, match m w with
       | (Return a, w') => (Return a, w')
       | (Raised e, w') => h e w'
       end.

Definition get {A} (f : world → A) : M A := λ w, (Return (f w), w).
Definition modify (f : world → world) : M unit := λ w, (Return tt, f w).
Definition print (e : event) : M unit :=
  modify (λ w, set_stdout (stdout w ++ [e]) w).

Declare Scope py_scope.
Delimit Scope py_scope with py.
Notation "x <- m ;; k" := (bind m (λ x, k))
  (at level 20, m at level 99, k at level 200, only parsing) : py_scope.
Notation "m ;; k" := (bind m (λ _, k))
  (at level 100, k at level 200, right associativity, only parsing) : py_scope.
Open Scope py_scope.

(** [for x in l: body x] *)
Fixpoint for_each {A} (l : list A) (body : A → M unit) : M unit :=
  match l with
  | [] => ret tt
  | x :: l' => body x ;; for_each l' body
  end.

(** ** [os] *)

Module OS.
(** [os.listdir(output_path/d)], in the order the system gives. *)
Definition listdir (d : str) : M (list str) :=
  λ w, match fs w !! d with
       | Some entries => (Return (map_to_list entries).*1, w)
       | None => (Raised (OSError [d]), w)
       end.

(** [os.path.isfile(output_path/d/file)] *)
Definition path_isfile (d file : str) : M bool :=
  get (λ w, match fs w !! d ≫= (.!! file) with
            | Some a => isfile a
            | None => false
            end).

(** The path of a hit, by its parts. *)
Definition hit_path (file_path : hit) : list str :=
  match file_path with
  | InDir d file => [d; file]
  | Elsewhere path _ => [path]
  end.

(** [os.unlink(file_path)] *)
Definition unlink (file_path : hit) : M unit :=
  λ w, match file_path with
       | InDir d file =>
           match fs w !! d with
           | Some entries =>
               match entries !! file with
               | Some a =>
                   if unlinkable a
                   then (Return tt,
                         set_fs (<[d := delete file entries]> (fs w)) w)
                   else (Raised (OSError [d; file]), w)
               | None => (Raised (OSError [d; file]), w)
               end
           | None => (Raised (OSError [d; file]), w)
           end
       | Elsewhere path unlink_ok =>
           if unlink_ok then (Return tt, w) else (Raised (OSError [path]), w)
       end.
End OS.

(** ** [config.py] *)

Module Config.
(** [Config.channels]: the stored channels, none when the key is missing. *)
Definition channels : M (list Channel) :=
  get (λ w, default [] (channels_key (config w))).

(** The loop of [add_channel]: the first stored channel with the id. *)
Fixpoint first_with_id (new_id : str) (chs : list Channel) : option Channel :=
  match chs with
  | [] => None
  | channel :: chs' =>
      if decide (id channel = new_id) then Some channel
      else first_with_id new_id chs'
  end.

(** [self.config.get("channels", []).append(kwargs)]: the stored list
    grows in place; the default list is a fresh one that nothing keeps. *)
Definition append_channel (kwargs : Channel) : M unit :=
  modify (λ w, match channels_key (config w) with
               | Some l => set_config (ConfigDict (Some (l ++ [kwargs]))) w
               | None => w
               end).

Definition add_channel (new_channel : Channel) : M bool :=
  chs <- channels ;;
  match first_with_id (id new_channel) chs with
  | Some channel =>
      print (AlreadyInArchive (id channel)) ;;
      ret false
  | None =>
      let kwargs := new_channel in
      append_channel kwargs ;;
      ret true
  end.

(** [Config.save()]: the document is written to the file it came from. *)
Definition save : M unit :=
  modify (λ w, set_config_file (config w) w).
End Config.

(** ** [yt_api.py] *)

Module YTApi.
Section YTApi.
Context `{!Externals}.

Definition CHANNEL_TYPE : str := of_string "WEB_PAGE_TYPE_CHANNEL".
Definition BASE_URL : str := of_string "https://www.youtube.com/".

Record SearchResult := MkSearchResult {
  sr_id : option str;
  sr_name : option str;
  sr_url : str
}.

Definition is_channel (search_result : raw_result) : bool :=
  bool_decide (page_type search_result = Some CHANNEL_TYPE).
Definition channel_id (search_result : raw_result) : option str :=
  browse_id search_result.
Definition channel_name (search_result : raw_result) : option str :=
  byline_text search_result.
Definition channel_url (search_result : raw_result) : str :=
  urljoin BASE_URL (canonical_base_url search_result).

Fixpoint channel_search_from (result_ids : gset (option str))
    (results : feed raw_result) : feed SearchResult :=
  match results with
  | Yield result rest =>
      let id_ := channel_id result in
      if is_channel result && bool_decide (id_ ∉ result_ids) then
        Yield (MkSearchResult id_ (channel_name result) (channel_url result))
              (channel_search_from ({[id_]} ∪ result_ids) rest)
      else channel_search_from result_ids rest
  | StopIteration => StopIteration
  | Raises e => Raises e
  end.

Definition channel_search (term : str) : feed SearchResult :=
  channel_search_from ∅ (get_search term).
End YTApi.
End YTApi.

(** ** [archiver.py] *)

Module Archiver.
Section Archiver.
Context `{!Externals}.

Definition channels : M (list Channel) := Config.channels.

(** The loop of [channel_search]; [index] is the count of [enumerate]. *)
Fixpoint channel_search_from (max_results index : Z)
    (results : feed YTApi.SearchResult) : feed YTApi.SearchResult :=
  match results with
  | Yield result rest =>
      if (index + 1 =? max_results)%Z then StopIteration
      else Yield result (channel_search_from max_results (index + 1) rest)
  | StopIteration => StopIteration
  | Raises e => Raises e
  end.

Definition channel_search (term : str) (max_results : Z)
    : feed YTApi.SearchResult :=
  channel_search_from max_results 0 (YTApi.channel_search term).

(** The value of [max_results] when the caller gives none. *)
Definition default_max_results : Z := 5.

Definition add_channel (channel : Channel) : M bool :=
  added <- Config.add_channel channel ;;
  if added then
    Config.save ;;
    ret true
  else ret false.

(** The loop of [get_latest_videos]; the comparison of an [int] with
    [None] is false. *)
Fixpoint latest_videos_from (keep : option Z) (index : Z)
    (videos : feed video) (video_ids : gset str) : outcome (gset str) :=
  match videos with
  | Yield video rest =>
      let video_ids := {[videoId video]} ∪ video_ids in
      if bool_decide (Some (index + 1)%Z = keep) then Return video_ids
      else latest_videos_from keep (index + 1) rest video_ids
  | StopIteration => Return video_ids
  | Raises e => Raised e
  end.

Definition get_latest_videos (channel : Channel) : M (gset str) :=
  let video_ids := ∅ in
  let videos := get_channel (id channel) in
  λ w, (latest_videos_from (keep channel) 0 videos video_ids, w).

(** [re.compile("\\[([\\w-]+)\\]\\.\\w+$")] *)
Definition video_pattern : Re.regex :=
  Re.Cat (Re.Chr c_lbracket)
    (Re.Cat (Re.Group (Re.Plus Re.is_word_or_hyphen))
       (Re.Cat (Re.Chr c_rbracket)
          (Re.Cat (Re.Chr c_dot)
             (Re.Cat (Re.Plus Re.is_word) Re.Dollar)))).

(** [result = re.search(video_pattern, file)] and, for a match,
    [result.group(1)]; group 1 takes part in every match of the pattern. *)
Definition parse_filename (file : str) : option str :=
  Re.search video_pattern file ≫= Re.group1.

(** The body of the loop over [files]. *)
Definition scan_file (channel_path file : str) (video_ids : gset str)
    : M (gset str) :=
  is_file <- OS.path_isfile channel_path file ;;
  if is_file then
    match parse_filename file with
    | Some video_id => ret ({[video_id]} ∪ video_ids)
    | None => ret video_ids
    end
  else ret video_ids.

Fixpoint scan_files (channel_path : str) (files : list str)
    (video_ids : gset str) : M (gset str) :=
  match files with
  | [] => ret video_ids
  | file :: files' =>
      video_ids <- scan_file channel_path file video_ids ;;
      scan_files channel_path files' video_ids
  end.

Definition get_local_videos (channel : Channel) : M (gset str) :=
  let video_ids := ∅ in
  let channel_path := name channel in
  listing <- try_except
               (files <- OS.listdir channel_path ;; ret (Some files))
               (λ e, print (ErrorListing [channel_path] e) ;; ret None) ;;
  match listing with
  | None => ret video_ids
  | Some files => scan_files channel_path files video_ids
  end.

(** The body of the loop of [download_videos]: the command is formatted
    and called outside any [try]. *)
Definition download_video (channel : Channel) (video : str) : M unit :=
  λ w, let (called, f) := run_downloader video (name channel) (fs w) in
       (called, set_fs f w).

Definition download_videos (channel : Channel) (new_videos : gset str)
    : M unit :=
  for_each (elements new_videos) (download_video channel).

(** [f"*{pattern}*"] *)
Definition star_pattern (pattern : str) : str :=
  [c_star] ++ pattern ++ [c_star].

(** The body of the inner loop of [cleanup_videos]. *)
Definition unlink_file (file_path : hit) : M unit :=
  try_except
    (OS.unlink file_path ;; print (Deleted (OS.hit_path file_path)))
    (λ e, print (ErrorDeleting (OS.hit_path file_path) e)).

(** The body of its outer loop; the call of [glob.glob] stands outside
    the [try]. *)
Definition cleanup_pattern (channel : Channel) (pattern : str) : M unit :=
  file_paths <- (λ w, (Glob.glob (fs w) (name channel)
                         (star_pattern pattern), w)) ;;
  for_each file_paths unlink_file.

Definition cleanup_videos (channel : Channel) (patterns : gset str)
    : M unit :=
  for_each (elements patterns) (cleanup_pattern channel).

(** The two differences of [sync_channel]. *)
Definition new_videos (latest_videos local_videos : gset str) : gset str :=
  latest_videos ∖ local_videos.
Definition old_videos (local_videos latest_videos : gset str) : gset str :=
  local_videos ∖ latest_videos.

Definition sync_channel (channel : Channel) : M unit :=
  local_videos <- get_local_videos channel ;;
  latest_videos <- get_latest_videos channel ;;
  download_videos channel (new_videos latest_videos local_videos) ;;
  cleanup_videos channel (old_videos local_videos latest_videos).

Definition sync : M unit :=
  chs <- Config.channels ;;
  for_each chs sync_channel.
End Archiver.
End Archiver.

(** ** [cli.py] *)

Module CLI.
Section CLI.
Context `{!Externals}.

(** The rows that the loop of [search] adds to the table; an exception of
    the generator ends the command. *)
Fixpoint table_rows (results : feed YTApi.SearchResult)
    (rows : list (option str * str * option str))
    : outcome (list (option str * str * option str)) :=
  match results with
  | Yield result rest =>
      table_rows rest
        (rows ++ [(YTApi.sr_name result, YTApi.sr_url result,
                   YTApi.sr_id result)])
  | StopIteration => Return rows
  | Raises e => Raised e
  end.

Definition search (term : str) : M Z :=
  print Searching ;;
  rows <- (λ w, (table_rows (Archiver.channel_search term
                               Archiver.default_max_results) [], w)) ;;
  print (SearchTable rows) ;;
  ret 0%Z.

Definition add (channel : Channel) : M Z :=
  added <- Archiver.add_channel channel ;;
  ret (if added then 0 else 1)%Z.

(** The body of the loop of [sync]. *)
Definition sync_one (channel : Channel) : M unit :=
  print (SyncingChannel (name channel)) ;;
  Archiver.sync_channel channel.

Definition sync : M Z :=
  chs <- Archiver.channels ;;
  for_each chs sync_one ;;
  ret 0%Z.




End CLI.
End CLI.

(** ** The vocabulary of the statements *)

Section Vocabulary.
Context `{!Externals}.

(** The file name is [title], a bracketed [video_id] of word characters
    and hyphens, a dot, an extension of word characters, and [tail]. *)
Definition bracket_id_name (file video_id tail : str) : Prop :=
  ∃ title ext : str,
    file = title ++ [c_lbracket] ++ video_id ++ [c_rbracket; c_dot]
                 ++ ext ++ tail
    ∧ video_id ≠ []
    ∧ Forall (λ c, Re.is_word_or_hyphen c = true) video_id
    ∧ ext ≠ []
    ∧ Forall (λ c, Re.is_word c = true) ext.


(** The id that the local scan reads from an entry of a directory. *)
Definition scanned_id (entries : gmap (list N) attrs) (file : str)
    : option str :=
  match entries !! file with
  | Some a => if isfile a then Archiver.parse_filename file else None
  | None => None
  end.







(** The row of the search table for a result. *)
Definition search_row (result : YTApi.SearchResult)
    : option str * str * option str :=
  (YTApi.sr_name result, YTApi.sr_url result, YTApi.sr_id result).

(** The items a generator yields before it stops or raises. *)
Fixpoint yielded {A} (g : feed A) : list A :=
  match g with
  | Yield a rest => a :: yielded rest
  | StopIteration => []
  | Raises _ => []
  end.
End Vocabulary.

(** ** An example environment

    One channel with a retention of two, whose feed yields [v3], [v2] and
    [v1]; a channel whose lookup fails; a downloader that writes
    [Video [<id>].mp4] into the channel's directory. *)

Module Example.
Definition chan : str := of_string "chan".
Definition UCgood : str := of_string "UCgood".
Definition UCbad : str := of_string "UCbad".
Definition v1 : str := of_string "v1".
Definition v2 : str := of_string "v2".
Definition v3 : str := of_string "v3".

Definition downloaded_name (video : str) : str :=
  of_string "Video [" ++ video ++ of_string "].mp4".

Definition search_hit (n : string) : raw_result :=
  RawResult (Some (of_string "WEB_PAGE_TYPE_CHANNEL")) (Some (of_string n))
    (Some (of_string n)) (Some (of_string n)).

#[export] Instance externals : Externals := {|
  uni_alnum := λ _, false;
  bracket_mem := λ _ _, false;
  get_channel := λ channel_id,
    if bool_decide (channel_id = UCgood)
    then yields [Video v3; Video v2; Video v1] StopIteration
    else Raises (RemoteLookupError channel_id);
  get_search := λ _,
    yields (search_hit <$> ["a"; "b"; "a"; "c"; "d"; "e"; "f"]%string)
      StopIteration;
  urljoin := λ base url, base ++ default [] url;
  run_downloader := λ video channel_name f,
    (Return tt,
     <[channel_name := <[downloaded_name video := Attrs true true]>
                         (default ∅ (f !! channel_name))]> f);
  output_path := of_string "videos";
  glob_elsewhere := λ _ _ _, Return []
|}.

Definition good : Channel := MkChannel chan UCgood (Some 2%Z).
Definition bad : Channel := MkChannel (of_string "gone") UCbad None.

Definition stored : config_dict := ConfigDict (Some [bad; good]).

(** [chan] holds the videos [v1] and [v2]. *)
Definition w0 : world :=
  World stored stored
    {[ chan := {[ of_string "Old [v1].mp4" := Attrs true true;
                  of_string "Mid [v2].mp4" := Attrs true true ]} ]}
    [].

(** A directory for the purge of [abc]: two files that hold the id, one
    that does not, a hidden one and one that cannot be unlinked. *)
Definition purge_entries : gmap (list N) attrs :=
  {[ of_string "Title [abc].mp4" := Attrs true true;
     of_string "abc_thumbnail.jpg" := Attrs true true;
     of_string "Other [xyz].mp4" := Attrs true true;
     of_string ".Title [abc].mp4" := Attrs true true;
     of_string "abc locked.mkv" := Attrs true false ]}.

Definition purge_world : world :=
  World stored stored {[ chan := purge_entries ]} [].



(** A configuration file with a downloader block and no channel list. *)
Definition no_channels : config_dict := ConfigDict None.
Definition fresh_world : world := World no_channels no_channels ∅ [].

(** [chan] holds the remote window of [good] already. *)
Definition synced_world : world :=
  World stored stored
    {[ chan := {[ of_string "New [v3].mp4" := Attrs true true;
                  of_string "Mid [v2].mp4" := Attrs true true ]} ]}
    [].






End Example.

(** * Properties *)

(** ** The filename pattern *)

Section FilenamePattern.
Context `{!Externals}.

Lemma star_sound {A} p (k : str → option A) s a :
  Re.star p k s = Some a →
  ∃ xs rest, s = xs ++ rest ∧ Forall (λ c, p c = true) xs ∧ k rest = Some a.
Proof.
  induction s as [|c s IH]; simpl; intros Hs.
  - exists [], []. auto.
  - destruct (p c) eqn:Hc.
    + destruct (Re.star p k s) as [a'|] eqn:Hstar.
      * destruct IH as (xs & rest & -> & Hxs & Hk); [congruence|].
        exists (c :: xs), rest. repeat split; auto.
      * exists [], (c :: s). auto.
    + exists [], (c :: s). auto.
Qed.

Lemma star_zero {A} p (k : str → option A) s :
  is_Some (k s) → is_Some (Re.star p k s).
Proof.
  intros Hk. destruct s as [|c s]; simpl; [done|].
  destruct (p c); [|done]. destruct (Re.star p k s); eauto.
Qed.

Lemma star_complete {A} p (k : str → option A) xs rest :
  Forall (λ c, p c = true) xs → is_Some (k rest) →
  is_Some (Re.star p k (xs ++ rest)).
Proof.
  intros Hxs Hk. induction Hxs as [|c xs Hc _ IH]; simpl.
  - by apply star_zero.
  - rewrite Hc. destruct IH as [a ->]. eauto.
Qed.

Lemma take_prefix (xs rest : str) :
  take (length (xs ++ rest) - length rest) (xs ++ rest) = xs.
Proof.
  rewrite length_app.
  replace (length xs + length rest - length rest) with (length xs) by lia.
  apply take_app_length.
Qed.

Lemma at_end_cases s : Re.at_end s = true → s = [] ∨ s = [c_newline].
Proof.
  destruct s as [|c [|d s]]; cbn [Re.at_end]; intros Hs; auto; [|done].
  right. apply N.eqb_eq in Hs. by subst.
Qed.

Lemma match_video_pattern_sound s mo :
  Re.match_ Archiver.video_pattern s = Some mo →
  ∃ video_id ext tail,
    s = [c_lbracket] ++ video_id ++ [c_rbracket; c_dot] ++ ext ++ tail
    ∧ video_id ≠ []
    ∧ Forall (λ c, Re.is_word_or_hyphen c = true) video_id
    ∧ ext ≠ []
    ∧ Forall (λ c, Re.is_word c = true) ext
    ∧ Re.at_end tail = true
    ∧ mo = Re.Match (Some video_id).
Proof.
  unfold Re.match_, Archiver.video_pattern. cbn [Re.run].
  destruct s as [|d0 s]; [done|].
  destruct (c_lbracket =? d0)%N eqn:H0; [|done].
  apply N.eqb_eq in H0. subst d0.
  destruct s as [|d1 s]; [done|].
  destruct (Re.is_word_or_hyphen d1) eqn:H1; [|done].
  intros Hstar. apply star_sound in Hstar as (xs & rest & -> & Hxs & Hk).
  destruct rest as [|d2 rest]; [done|].
  destruct (c_rbracket =? d2)%N eqn:H2; [|done].
  apply N.eqb_eq in H2. subst d2.
  destruct rest as [|d3 rest]; [done|].
  destruct (c_dot =? d3)%N eqn:H3; [|done].
  apply N.eqb_eq in H3. subst d3.
  destruct rest as [|d4 rest]; [done|].
  destruct (Re.is_word d4) eqn:H4; [|done].
  apply star_sound in Hk as (ys & tail & -> & Hys & Hk).
  destruct (Re.at_end tail) eqn:Hend; [|done].
  exists (d1 :: xs), (d4 :: ys), tail.
  repeat split; auto; try done.
  change (d1 :: xs ++ ?r) with ((d1 :: xs) ++ r) in Hk.
  rewrite take_prefix in Hk. congruence.
Qed.

Lemma match_video_pattern_complete video_id ext tail :
  video_id ≠ [] →
  Forall (λ c, Re.is_word_or_hyphen c = true) video_id →
  ext ≠ [] →
  Forall (λ c, Re.is_word c = true) ext →
  Re.at_end tail = true →
  is_Some (Re.match_ Archiver.video_pattern
             ([c_lbracket] ++ video_id ++ [c_rbracket; c_dot] ++ ext ++ tail)).
Proof.
  intros Hne Hid Hne' Hext Hend.
  destruct video_id as [|d1 xs]; [done|].
  destruct ext as [|d4 ys]; [done|].
  apply Forall_cons in Hid as [H1 Hxs].
  apply Forall_cons in Hext as [H4 Hys].
  unfold Re.match_, Archiver.video_pattern. cbn [Re.run app].
  rewrite N.eqb_refl, H1. apply star_complete; [done|]. cbn [app].
  rewrite !N.eqb_refl, H4. apply star_complete; [done|]. rewrite Hend. eauto.
Qed.

Lemma search_sound r s mo :
  Re.search r s = Some mo →
  ∃ pre s', s = pre ++ s' ∧ Re.match_ r s' = Some mo.
Proof.
  induction s as [|c s IH]; simpl.
  - destruct (Re.match_ r []) eqn:Hm; [|done].
    intros [= ->]. by exists [], [].
  - destruct (Re.match_ r (c :: s)) eqn:Hm.
    + intros [= ->]. by exists [], (c :: s).
    + intros (pre & s' & -> & Hs')%IH. by exists (c :: pre), s'.
Qed.

Lemma search_complete r pre s :
  is_Some (Re.match_ r s) → is_Some (Re.search r (pre ++ s)).
Proof.
  intros Hm. induction pre as [|c pre IH]; simpl.
  - destruct s; simpl; destruct Hm as [mo ->]; eauto.
  - destruct (Re.match_ r (c :: pre ++ s)); eauto.
Qed.
(** A separator that is not in the class is found from the right. *)
Lemma split_unique (p : N → bool) (xs ys xs' ys' : str) a a' :
  p a = false → p a' = false →
  Forall (λ c, p c = true) ys → Forall (λ c, p c = true) ys' →
  xs ++ a :: ys = xs' ++ a' :: ys' →
  xs = xs' ∧ a = a' ∧ ys = ys'.
Proof.
  intros Ha Ha' Hys Hys'. revert xs'.
  induction xs as [|x xs IH]; intros [|x' xs']; cbn [app]; intros Heq.
  - by injection Heq as -> ->.
  - injection Heq as -> ->.
    apply Forall_app in Hys as [_ Hys]. apply Forall_cons in Hys as [Hys _].
    congruence.
  - injection Heq as -> <-.
    apply Forall_app in Hys' as [_ Hys']. apply Forall_cons in Hys' as [Hys' _].
    congruence.
  - injection Heq as -> Heq. destruct (IH _ Heq) as (-> & -> & ->). done.
Qed.

Lemma is_word_newline : Re.is_word c_newline = false.
Proof. reflexivity. Qed.
Lemma is_word_dot : Re.is_word c_dot = false.
Proof. reflexivity. Qed.
Lemma is_word_or_hyphen_lbracket : Re.is_word_or_hyphen c_lbracket = false.
Proof. reflexivity. Qed.

Lemma tail_unique (xs ext tail xs' ext' tail' : str) :
  ext ≠ [] → ext' ≠ [] →
  Forall (λ c, Re.is_word c = true) ext →
  Forall (λ c, Re.is_word c = true) ext' →
  Re.at_end tail = true → Re.at_end tail' = true →
  xs ++ ext ++ tail = xs' ++ ext' ++ tail' →
  tail = tail'.
Proof.
  intros Hne Hne' Hext Hext' Hend Hend' Heq.
  destruct ext as [|x ext _] using rev_ind; [done|].
  destruct ext' as [|x' ext' _] using rev_ind; [done|].
  apply Forall_app in Hext as [_ [Hx _]%Forall_cons].
  apply Forall_app in Hext' as [_ [Hx' _]%Forall_cons].
  pose proof is_word_newline as Hnl.
  destruct (at_end_cases _ Hend) as [->| ->],
           (at_end_cases _ Hend') as [->| ->]; try done.
  - rewrite app_nil_r, !app_assoc in Heq.
    apply app_inj_tail in Heq as [_ ->]. congruence.
  - rewrite app_nil_r, !app_assoc in Heq.
    apply app_inj_tail in Heq as [_ <-]. congruence.
Qed.

Lemma bracket_id_unique (t i e n t' i' e' n' : str) :
  Forall (λ c, Re.is_word_or_hyphen c = true) i →
  Forall (λ c, Re.is_word_or_hyphen c = true) i' →
  e ≠ [] → e' ≠ [] →
  Forall (λ c, Re.is_word c = true) e →
  Forall (λ c, Re.is_word c = true) e' →
  Re.at_end n = true → Re.at_end n' = true →
  t ++ [c_lbracket] ++ i ++ [c_rbracket; c_dot] ++ e ++ n
  = t' ++ [c_lbracket] ++ i' ++ [c_rbracket; c_dot] ++ e' ++ n' →
  i = i' ∧ n = n'.
Proof.
  intros Hi Hi' Hne Hne' He He' Hn Hn' Heq.
  assert (n = n') as <-.
  { apply (tail_unique (t ++ [c_lbracket] ++ i ++ [c_rbracket; c_dot]) e n
             (t' ++ [c_lbracket] ++ i' ++ [c_rbracket; c_dot]) e' n');
      try done.
    by rewrite <- !app_assoc. }
  split; [|done].
  replace (t ++ [c_lbracket] ++ i ++ [c_rbracket; c_dot] ++ e ++ n)
    with (((t ++ [c_lbracket] ++ i ++ [c_rbracket]) ++ c_dot :: e) ++ n)
    in Heq by (by rewrite <- !app_assoc).
  replace (t' ++ [c_lbracket] ++ i' ++ [c_rbracket; c_dot] ++ e' ++ n)
    with (((t' ++ [c_lbracket] ++ i' ++ [c_rbracket]) ++ c_dot :: e') ++ n)
    in Heq by (by rewrite <- !app_assoc).
  apply app_inv_tail in Heq.
  apply (split_unique Re.is_word) in Heq as (Heq & _ & _);
    auto using is_word_dot.
  rewrite !app_assoc in Heq. apply app_inj_tail in Heq as [Heq _].
  rewrite <- !app_assoc in Heq. cbn [app] in Heq.
  apply (split_unique Re.is_word_or_hyphen) in Heq as (_ & _ & Heq);
    auto using is_word_or_hyphen_lbracket.
Qed.

(** The parser finds an id exactly in the names that end with a bracketed
    id, a dot and an extension, up to one final newline (what [$] lets
    pass). *)
Lemma parse_filename_spec (file video_id : str) :
  Archiver.parse_filename file = Some video_id ↔
  bracket_id_name file video_id [] ∨ bracket_id_name file video_id [c_newline].
Proof.
  unfold Archiver.parse_filename. split.
  - intros Hp. apply bind_Some in Hp as (mo & Hs & Hg).
    apply search_sound in Hs as (title & s' & -> & Hm).
    apply match_video_pattern_sound in Hm
      as (i & ext & tail & -> & Hne & Hi & Hne' & Hext & Hend & ->).
    injection Hg as ->.
    destruct (at_end_cases _ Hend) as [->| ->]; [left|right];
      exists title, ext; done.
  - intros Hshape.
    assert (∃ tail, Re.at_end tail = true ∧ bracket_id_name file video_id tail)
      as (tail & Hend & title & ext & -> & Hne & Hi & Hne' & Hext).
    { destruct Hshape; [exists []|exists [c_newline]]; done. }
    destruct (search_complete Archiver.video_pattern title
                ([c_lbracket] ++ video_id ++ [c_rbracket; c_dot] ++ ext ++ tail))
      as [mo Hs].
    { by apply match_video_pattern_complete. }
    rewrite Hs. cbn.
    apply search_sound in Hs as (title' & s' & Heq & Hm).
    apply match_video_pattern_sound in Hm
      as (i & ext' & tail' & -> & _ & Hi' & Hne'' & Hext' & Hend' & ->).
    cbn [Re.group1]. f_equal.
    by apply bracket_id_unique in Heq as [-> _].
Qed.
End FilenamePattern.

(** ** C5: the filename parser *)

(** C5 (as amended): the parser gives ["abc-123"] for
    ["Some Title [abc-123].mp4"], nothing for ["no-brackets.mp4"] and ["y"]
    for ["[x][y].mkv"]; in general it gives [video_id] exactly for the
    names that end with a bracket, the non-empty token [video_id] of word
    characters and hyphens, a closing bracket, a dot and one or more word
    characters, or with all that and one final newline. *)
Theorem parse_filename_correct `{!Externals} :
  Archiver.parse_filename (of_string "Some Title [abc-123].mp4")
    = Some (of_string "abc-123")
  ∧ Archiver.parse_filename (of_string "no-brackets.mp4") = None
  ∧ Archiver.parse_filename (of_string "[x][y].mkv") = Some (of_string "y")
  ∧ ∀ file video_id : str,
      Archiver.parse_filename file = Some video_id ↔
      bracket_id_name file video_id []
      ∨ bracket_id_name file video_id [c_newline].
Proof.
  split_and!; [reflexivity..|]. apply parse_filename_spec.
Qed.

(** C5 as stated fails: the name ["a [b].c\n"] is parsed to the id ["b"]
    and does not end with an extension of word characters. *)
Lemma parse_filename_trailing_newline :
  (∀ X : Externals,
     @Archiver.parse_filename X (of_string "a [b].c" ++ [c_newline])
     = Some (of_string "b"))
  ∧ (∀ X : Externals,
       ¬ ∃ video_id,
           @bracket_id_name X (of_string "a [b].c" ++ [c_newline]) video_id []).
Proof.
  split; intros X; [reflexivity|].
  intros (video_id & title & ext & Hfile & _ & _ & Hne & Hext).
  destruct ext as [|x ext _] using rev_ind; [done|].
  apply Forall_app in Hext as [_ [Hx _]%Forall_cons].
  rewrite app_nil_r, !app_assoc in Hfile.
  apply app_inj_tail in Hfile as [_ <-].
  by rewrite is_word_newline in Hx.
Qed.

(** ** [fnmatch] on the patterns of the purge *)

Section GlobPatterns.
Context `{!Externals}.

Lemma has_magic_cons c v :
  Glob.has_magic (c :: v) = false →
  (c =? c_star)%N = false ∧ (c =? c_question)%N = false
  ∧ (c =? c_lbracket)%N = false ∧ Glob.has_magic v = false.
Proof.
  unfold Glob.has_magic, Glob.is_magic. cbn [existsb].
  rewrite !orb_false_iff. tauto.
Qed.

Lemma translate_from_literal v rest :
  Glob.has_magic v = false →
  Glob.translate_from 0 (v ++ rest)
  = (Glob.TLit <$> v) ++ Glob.translate_from 0 rest.
Proof.
  induction v as [|c v IH]; [done|].
  intros (H1 & H2 & H3 & Hv)%has_magic_cons.
  cbn [app Glob.translate_from fmap list_fmap]. rewrite H1, H2, H3.
  by rewrite IH.
Qed.

Lemma translate_star_pattern v :
  Glob.has_magic v = false →
  Glob.translate (Archiver.star_pattern v)
  = Glob.TStar :: (Glob.TLit <$> v) ++ [Glob.TStar].
Proof.
  intros Hv. unfold Glob.translate, Archiver.star_pattern.
  cbn [app Glob.translate_from]. rewrite N.eqb_refl.
  by rewrite translate_from_literal.
Qed.





End GlobPatterns.

(** ** The local scan *)

Section LocalScan.
Context `{!Externals}.

Lemma scan_file_run d file ids w entries :
  fs w !! d = Some entries →
  Archiver.scan_file d file ids w
  = (Return (match scanned_id entries file with
             | Some v => {[v]} ∪ ids
             | None => ids
             end), w).
Proof.
  intros Hd. unfold Archiver.scan_file, bind, OS.path_isfile, get, scanned_id.
  rewrite Hd. cbn. destruct (entries !! file) as [a|]; [|done].
  destruct (isfile a); [|done].
  by destruct (Archiver.parse_filename file).
Qed.

Lemma scan_files_run d files ids w entries :
  fs w !! d = Some entries →
  ∃ found : gset str,
    Archiver.scan_files d files ids w = (Return found, w)
    ∧ ∀ v, v ∈ found ↔
           v ∈ ids ∨ ∃ file, file ∈ files ∧ scanned_id entries file = Some v.
Proof.
  intros Hd. revert ids. induction files as [|file files IH]; intros ids.
  - exists ids. split; [done|]. intros v. split; [auto|].
    intros [?|(file & Hin & _)]; [done|]. by apply elem_of_nil in Hin.
  - cbn [Archiver.scan_files]. unfold bind at 1.
    rewrite (scan_file_run _ _ _ _ _ Hd).
    destruct (IH (match scanned_id entries file with
                  | Some v => {[v]} ∪ ids
                  | None => ids
                  end)) as (found & -> & Hfound).
    exists found. split; [done|]. intros v. rewrite Hfound.
    split.
    + intros [Hv|(file' & Hin & Hs)].
      * destruct (scanned_id entries file) as [v'|] eqn:Hs; [|by left].
        apply elem_of_union in Hv as [->%elem_of_singleton|Hv]; [|by left].
        right. exists file. split; [left|done].
      * right. exists file'. split; [by right|done].
    + intros [Hv|(file' & Hin & Hs)].
      * left. destruct (scanned_id entries file); [|done].
        apply elem_of_union. by right.
      * apply elem_of_cons in Hin as [->|Hin].
        -- left. rewrite Hs. apply elem_of_union. left.
           by apply elem_of_singleton.
        -- right. by exists file'.
Qed.

Lemma scanned_id_listed entries file v :
  scanned_id entries file = Some v → file ∈ (map_to_list entries).*1.
Proof.
  unfold scanned_id. destruct (entries !! file) as [a|] eqn:Ha; [|done].
  intros _. apply list_elem_of_fmap. exists (file, a).
  split; [done|]. by apply elem_of_map_to_list.
Qed.

(** The scan of a directory that can be listed. *)
Lemma get_local_videos_listed channel w entries :
  fs w !! name channel = Some entries →
  ∃ found : gset str,
    Archiver.get_local_videos channel w = (Return found, w)
    ∧ ∀ v, v ∈ found ↔ ∃ file, scanned_id entries file = Some v.
Proof.
  intros Hd.
  destruct (scan_files_run (name channel) (map_to_list entries).*1 ∅ w
              entries Hd) as (found & Hrun & Hfound).
  exists found. split.
  - unfold Archiver.get_local_videos, bind, try_except, OS.listdir, ret.
    rewrite Hd. exact Hrun.
  - intros v. rewrite Hfound. split.
    + intros [Hv|(file & _ & Hs)]; [set_solver|]. by exists file.
    + intros (file & Hs). right. exists file.
      split; [|done]. by eapply scanned_id_listed.
Qed.

(** The scan of a directory that cannot be listed. *)
Lemma get_local_videos_unlisted channel w :
  fs w !! name channel = None →
  Archiver.get_local_videos channel w
  = (Return ∅,
     set_stdout (stdout w ++ [ErrorListing [name channel]
                                (OSError [name channel])]) w).
Proof.
  intros Hd.
  unfold Archiver.get_local_videos, bind, try_except, OS.listdir, ret, print,
    modify.
  by rewrite Hd.
Qed.
End LocalScan.

(** ** The purge *)

Section Purge.
Context `{!Externals}.






Lemma glob_missing_directory (f : filesystem) nm pat :
  Glob.modelled output_path nm pat = true →
  Glob.has_magic nm = false → f !! nm = None →
  Glob.glob f nm pat = Return [].
Proof.
  intros Hmod Hm Hd. unfold Glob.glob, Glob.glob_dirs, Glob.glob_in.
  rewrite Hmod, Hm. cbn. by rewrite Hd.
Qed.









End Purge.

(** ** C1: the reconciliation *)

(** C1: [sync_channel] hands the fetcher the ids [R ∖ L] and the purger
    the ids [L ∖ R], where [L] is the local scan and [R] the remote
    window; the two sets are disjoint and, with [L], cover [R ∪ L]. *)
Theorem reconcile_correct `{!Externals} (channel : Channel)
    (R L : gset (list N)) :
  Archiver.sync_channel channel
  = (local <- Archiver.get_local_videos channel ;;
     latest <- Archiver.get_latest_videos channel ;;
     Archiver.download_videos channel (latest ∖ local) ;;
     Archiver.cleanup_videos channel (local ∖ latest))
  ∧ Archiver.new_videos R L = R ∖ L
  ∧ Archiver.old_videos L R = L ∖ R
  ∧ (∀ v, v ∈ Archiver.new_videos R L ↔ v ∈ R ∧ v ∉ L)
  ∧ (∀ v, v ∈ Archiver.old_videos L R ↔ v ∈ L ∧ v ∉ R)
  ∧ Archiver.new_videos R L ∩ Archiver.old_videos L R = ∅
  ∧ R ∪ L ⊆ Archiver.new_videos R L ∪ L ∪ Archiver.old_videos L R.
Proof.
  unfold Archiver.new_videos, Archiver.old_videos.
  split_and!; [reflexivity..| | | |].
  - intros v. apply elem_of_difference.
  - intros v. apply elem_of_difference.
  - apply set_eq. intros v.
    rewrite elem_of_intersection, !elem_of_difference, elem_of_empty. tauto.
  - intros v. rewrite !elem_of_union, !elem_of_difference.
    destruct (decide (v ∈ L)); tauto.
Qed.

(** ** C4: the remote window *)

Section RemoteWindow.
Context `{!Externals}.

Lemma size_list_to_set_le (l : list (list N)) :
  size (list_to_set l : gset (list N)) ≤ length l.
Proof.
  induction l as [|x l IH]; cbn [list_to_set length].
  - by rewrite size_empty.
  - rewrite size_union_alt, size_singleton.
    assert (size (list_to_set l ∖ {[x]} : gset (list N))
            ≤ size (list_to_set l : gset (list N))).
    { apply subseteq_size. intros v. rewrite elem_of_difference. tauto. }
    lia.
Qed.

(** The loop leaves at the item that brings the count to [k]. *)
Lemma latest_videos_from_keep (k index : Z) (items : list video)
    (tl : feed video) (acc : gset (list N)) :
  (0 ≤ index)%Z → (index < k)%Z → (k ≤ index + Z.of_nat (length items))%Z →
  Archiver.latest_videos_from (Some k) index (yields items tl) acc
  = Return (list_to_set (videoId <$> take (Z.to_nat (k - index)) items) ∪ acc).
Proof.
  revert index acc. induction items as [|a items IH]; intros index acc H0 Hk Hlen.
  - cbn [length] in Hlen. lia.
  - cbn [yields foldr Archiver.latest_videos_from].
    replace (Z.to_nat (k - index)) with (S (Z.to_nat (k - (index + 1)))) by lia.
    cbn [take fmap list_fmap list_to_set].
    case_bool_decide as Hb.
    + injection Hb as <-. replace (Z.to_nat (index + 1 - (index + 1))) with 0 by lia.
      rewrite take_0. f_equal. apply set_eq. intros v.
      cbn [fmap list_fmap list_to_set].
      rewrite !elem_of_union, elem_of_empty. tauto.
    + change (foldr Yield tl items) with (yields items tl).
      rewrite IH.
      * f_equal. apply set_eq. intros v. rewrite !elem_of_union. tauto.
      * lia.
      * assert (k ≠ index + 1)%Z by congruence. lia.
      * cbn [length] in Hlen. lia.
Qed.

(** Where the count never meets [keep] the whole stream is read. *)
Lemma latest_videos_from_all (keep : option Z) (index : Z)
    (items : list video)
    (acc : gset (list N)) :
  (∀ k, keep = Some k →
        (index + Z.of_nat (length items) < k ∨ k ≤ index)%Z) →
  Archiver.latest_videos_from keep index (yields items StopIteration) acc
  = Return (list_to_set (videoId <$> items) ∪ acc).
Proof.
  revert index acc. induction items as [|a items IH]; intros index acc Hk.
  - cbn. f_equal. apply set_eq. intros v.
    rewrite elem_of_union, elem_of_empty. tauto.
  - cbn [yields foldr Archiver.latest_videos_from].
    rewrite bool_decide_eq_false_2.
    + change (foldr Yield StopIteration items) with (yields items StopIteration).
      rewrite IH.
      * f_equal. apply set_eq. intros v.
        cbn [fmap list_fmap list_to_set]. rewrite !elem_of_union. tauto.
      * intros k Hkeep. specialize (Hk k Hkeep). cbn [length] in Hk. lia.
    + intros Heq. specialize (Hk _ (eq_sym Heq)). cbn [length] in Hk. lia.
Qed.
End RemoteWindow.

(** C4: [get_latest_videos] puts the ids of the stream into a set, in the
    order of the stream, until [keep] items are read or the stream ends:
    with a positive [keep] the set is that of the first [keep] items and
    has at most [keep] elements, without [keep] it is that of the whole
    stream; what follows the item that fills the window is not read. *)
Theorem get_latest_videos_window `{!Externals} (channel : Channel) (w : world)
    (items : list video) :
  (get_channel (id channel) = yields items StopIteration →
   match keep channel with
   | None =>
       Archiver.get_latest_videos channel w
       = (Return (list_to_set (videoId <$> items)), w)
   | Some k =>
       (0 < k)%Z →
       Archiver.get_latest_videos channel w
       = (Return (list_to_set (videoId <$> take (Z.to_nat k) items)), w)
       ∧ size (list_to_set (videoId <$> take (Z.to_nat k) items)
               : gset (list N)) ≤ Z.to_nat k
   end)
  ∧ (∀ tl, get_channel (id channel) = yields items tl →
           keep channel = Some (Z.of_nat (length items)) → items ≠ [] →
           Archiver.get_latest_videos channel w
           = (Return (list_to_set (videoId <$> items)), w)).
Proof.
  unfold Archiver.get_latest_videos. split.
  - intros ->. destruct (keep channel) as [k|] eqn:Hkeep.
    + intros Hk. split.
      * f_equal.
        destruct (decide (k ≤ Z.of_nat (length items))%Z) as [Hle|Hgt].
        -- rewrite latest_videos_from_keep by lia.
           rewrite Z.sub_0_r. f_equal. apply set_eq. intros v.
           rewrite elem_of_union, elem_of_empty. tauto.
        -- rewrite latest_videos_from_all.
           ++ rewrite take_ge by lia. f_equal. apply set_eq. intros v.
              rewrite elem_of_union, elem_of_empty. tauto.
           ++ intros k' [= <-]. lia.
      * etrans; [apply size_list_to_set_le|].
        rewrite length_fmap, length_take. lia.
    + f_equal. rewrite latest_videos_from_all by done.
      f_equal. apply set_eq. intros v.
      rewrite elem_of_union, elem_of_empty. tauto.
  - intros tl -> -> Hne. f_equal.
    rewrite latest_videos_from_keep.
    + rewrite Z.sub_0_r, Nat2Z.id, firstn_all. f_equal. apply set_eq. intros v.
      rewrite elem_of_union, elem_of_empty. tauto.
    + lia.
    + destruct items; [done|]. cbn [length]. lia.
    + lia.
Qed.

(** ** C10: the channel search *)

Section Search.
Context `{!Externals}.

Lemma channel_search_from_take (n index : Z)
    (results : feed YTApi.SearchResult) :
  (0 ≤ index)%Z → (index < n)%Z →
  yielded (Archiver.channel_search_from n index results)
  = take (Z.to_nat (n - 1 - index)) (yielded results).
Proof.
  revert index. induction results as [result rest IH| |e]; intros index H0 Hn.
  - cbn [Archiver.channel_search_from yielded].
    destruct (index + 1 =? n)%Z eqn:Hstop.
    + apply Z.eqb_eq in Hstop.
      replace (Z.to_nat (n - 1 - index)) with 0 by lia. done.
    + apply Z.eqb_neq in Hstop.
      replace (Z.to_nat (n - 1 - index))
        with (S (Z.to_nat (n - 1 - (index + 1)))) by lia.
      cbn [yielded take]. f_equal. apply IH; lia.
  - cbn. by rewrite take_nil.
  - cbn. by rewrite take_nil.
Qed.
End Search.

(** C10: for a positive [max_results] the search yields the first
    [max_results - 1] results of [YTApi.channel_search], so at most
    [max_results - 1] of them, and at most four with the default of five:
    the loop breaks when the index of the next result plus one is
    [max_results]. *)
Theorem channel_search_bound `{!Externals} (term : list N) (n : Z) :
  (0 < n)%Z →
  yielded (Archiver.channel_search term n)
  = take (Z.to_nat (n - 1)) (yielded (YTApi.channel_search term))
  ∧ length (yielded (Archiver.channel_search term n)) ≤ Z.to_nat (n - 1)
  ∧ length (yielded (Archiver.channel_search term Archiver.default_max_results))
    ≤ 4.
Proof.
  intros Hn. unfold Archiver.channel_search.
  rewrite !channel_search_from_take by (unfold Archiver.default_max_results; lia).
  rewrite Z.sub_0_r. split_and!; [done|..].
  - rewrite length_take. lia.
  - rewrite length_take. unfold Archiver.default_max_results. lia.
Qed.

Lemma channel_search_bound_witness :
  (0 < 3)%Z
  ∧ yielded (@Archiver.channel_search Example.externals (of_string "rocq") 3)
    = take 2 (yielded (@YTApi.channel_search Example.externals (of_string "rocq")))
  ∧ length (yielded (@Archiver.channel_search Example.externals
                       (of_string "rocq") 3)) ≤ 2
  ∧ length (yielded (@Archiver.channel_search Example.externals
                       (of_string "rocq") Archiver.default_max_results)) ≤ 4.
Proof.
  split; [lia|].
  apply (@channel_search_bound Example.externals (of_string "rocq") 3). lia.
Defined.

(** ** C7: adding a channel *)

Section AddChannel.
Lemma first_with_id_None new_id chs :
  Config.first_with_id new_id chs = None ↔ ∀ ch, ch ∈ chs → id ch ≠ new_id.
Proof.
  induction chs as [|ch chs IH]; cbn.
  - split; [|done]. intros _ ch Hin. by apply elem_of_nil in Hin.
  - case_decide as Heq.
    + split; [done|]. intros Hall. destruct (Hall ch); [left|done].
    + rewrite IH. split.
      * intros Hall ch' [->|Hin]%elem_of_cons; auto.
      * intros Hall ch' Hin. apply Hall. by right.
Qed.


(** A channel whose id is stored is refused: the configuration and its
    file stay as they are, and the command returns 1. *)
Lemma add_duplicate_channel w new ch :
  ch ∈ default [] (channels_key (config w)) → id ch = id new →
  ∃ ch', Archiver.add_channel new w
         = (Return false, set_stdout (stdout w ++ [AlreadyInArchive (id ch')]) w)
       ∧ CLI.add new w
         = (Return 1%Z, set_stdout (stdout w ++ [AlreadyInArchive (id ch')]) w).
Proof.
  intros Hin Hid.
  destruct (Config.first_with_id (id new) (default [] (channels_key (config w))))
    as [ch'|] eqn:Hfirst.
  - exists ch'.
    unfold CLI.add, Archiver.add_channel, Config.add_channel, Config.channels,
      bind, get, print, modify, ret.
    by rewrite Hfirst.
  - apply first_with_id_None with (ch := ch) in Hfirst; done.
Qed.

(** A channel whose id is not stored is appended to the stored list and
    saved, where the configuration has the key ["channels"]. *)
Lemma add_fresh_channel w new chs :
  channels_key (config w) = Some chs →
  (∀ ch, ch ∈ chs → id ch ≠ id new) →
  Archiver.add_channel new w
  = (Return true,
     set_config_file (ConfigDict (Some (chs ++ [new])))
       (set_config (ConfigDict (Some (chs ++ [new]))) w))
  ∧ CLI.add new w
    = (Return 0%Z,
       set_config_file (ConfigDict (Some (chs ++ [new])))
         (set_config (ConfigDict (Some (chs ++ [new]))) w)).
Proof.
  intros Hkey Hfresh. apply first_with_id_None in Hfresh.
  unfold CLI.add, Archiver.add_channel, Config.add_channel, Config.channels,
    Config.append_channel, Config.save, bind, get, print, modify, ret.
  rewrite Hkey. change (default [] (Some chs)) with chs.
  rewrite Hfresh. by rewrite Hkey.
Qed.
End AddChannel.

(** C7, where the code leaves the claim: on a configuration without the
    key ["channels"] the command returns 0 and no channel is stored, in
    memory or in the file. *)
Theorem add_channel_without_channels_key :
  CLI.add Example.good Example.fresh_world = (Return 0%Z, Example.fresh_world)
  ∧ Archiver.add_channel Example.good Example.fresh_world
    = (Return true, Example.fresh_world)
  ∧ Config.channels Example.fresh_world = (Return [], Example.fresh_world)
  ∧ channels_key (config_file Example.fresh_world) = None.
Proof. done. Qed.

(** ** C8: a directory that cannot be listed *)



(** ** C9: the scanned ids as glob patterns *)

Section ScannedIds.
Context `{!Externals}.

Lemma word_or_hyphen_not_magic c :
  Re.is_word_or_hyphen c = true → Glob.is_magic c = false.
Proof.
  intros Hw. destruct (Glob.is_magic c) eqn:Hm; [|done].
  unfold Glob.is_magic in Hm.
  apply orb_true_iff in Hm as [[Hm|Hm]%orb_true_iff|Hm];
    apply N.eqb_eq in Hm; subst c; discriminate Hw.
Qed.

Lemma word_or_hyphen_no_magic v :
  Forall (λ c, Re.is_word_or_hyphen c = true) v → Glob.has_magic v = false.
Proof.
  unfold Glob.has_magic. induction 1 as [|c v Hc _ IH]; [done|].
  cbn [existsb]. by rewrite (word_or_hyphen_not_magic c Hc), IH.
Qed.

Lemma parse_filename_token file v :
  Archiver.parse_filename file = Some v →
  v ≠ [] ∧ Forall (λ c, Re.is_word_or_hyphen c = true) v.
Proof.
  intros [Hs|Hs]%parse_filename_spec;
    destruct Hs as (title & ext & _ & Hne & Hv & _); done.
Qed.

Lemma get_local_videos_elem channel w found w' v :
  Archiver.get_local_videos channel w = (Return found, w') →
  v ∈ found →
  ∃ entries file a,
    fs w !! name channel = Some entries ∧ entries !! file = Some a
    ∧ isfile a = true ∧ Archiver.parse_filename file = Some v.
Proof.
  intros Hrun Hv. destruct (fs w !! name channel) as [entries|] eqn:Hd.
  - destruct (get_local_videos_listed channel w entries Hd)
      as (found' & Hrun' & Hfound).
    assert (found' = found) as -> by congruence.
    destruct (proj1 (Hfound v) Hv) as (file & Hs). unfold scanned_id in Hs.
    destruct (entries !! file) as [a|] eqn:Ha; [|done].
    destruct (isfile a) eqn:Hf; [|done]. by exists entries, file, a.
  - rewrite get_local_videos_unlisted in Hrun by done.
    injection Hrun as <- _. by apply elem_of_empty in Hv.
Qed.
End ScannedIds.

(** C9: every id that the local scan returns is a non-empty string of word
    characters and hyphens; it holds none of [*], [?] and [[], so the
    purge pattern built from it is a star, the characters of the id and a
    star. *)
Theorem scanned_ids_glob_safe `{!Externals} (channel : Channel) (w w' : world)
    (found : gset (list N)) (v : list N) :
  Archiver.get_local_videos channel w = (Return found, w') →
  v ∈ found →
  v ≠ []
  ∧ Forall (λ c, Re.is_word_or_hyphen c = true) v
  ∧ Glob.has_magic v = false
  ∧ Glob.translate (Archiver.star_pattern v)
    = Glob.TStar :: (Glob.TLit <$> v) ++ [Glob.TStar].
Proof.
  intros Hrun Hv.
  destruct (get_local_videos_elem _ _ _ _ _ Hrun Hv)
    as (entries & file & a & _ & _ & _ & Hp).
  apply parse_filename_token in Hp as [Hne Hword].
  pose proof (word_or_hyphen_no_magic v Hword) as Hmagic.
  split_and!; try done. by apply translate_star_pattern.
Qed.

Lemma scanned_ids_glob_safe_witness :
  @Archiver.get_local_videos Example.externals Example.good Example.w0
  = (Return {[Example.v1; Example.v2]}, Example.w0)
  ∧ Example.v1 ∈ ({[Example.v1; Example.v2]} : gset (list N))
  ∧ Example.v1 ≠ []
  ∧ Forall (λ c, @Re.is_word_or_hyphen Example.externals c = true) Example.v1
  ∧ Glob.has_magic Example.v1 = false
  ∧ Glob.translate (Archiver.star_pattern Example.v1)
    = Glob.TStar :: (Glob.TLit <$> Example.v1) ++ [Glob.TStar].
Proof.
  assert (@Archiver.get_local_videos Example.externals Example.good Example.w0
          = (Return {[Example.v1; Example.v2]}, Example.w0)) as Hrun
    by (vm_compute; reflexivity).
  assert (Example.v1 ∈ ({[Example.v1; Example.v2]} : gset (list N))) as Hin
    by (apply elem_of_union; left; by apply elem_of_singleton).
  split; [exact Hrun|]. split; [exact Hin|].
  exact (@scanned_ids_glob_safe Example.externals Example.good Example.w0
           Example.w0 _ Example.v1 Hrun Hin).
Defined.

(** ** C3: what the purge deletes *)

Section PurgeMatching.
Context `{!Externals}.


End PurgeMatching.




(** ** C2: one pass brings the local set to the remote window *)



(** ** C6: a failure in one channel *)

Section SyncAll.
Context `{!Externals}.

Lemma for_each_app {A} (l1 l2 : list A) (body : A → M unit) (w : world) :
  for_each (l1 ++ l2) body w
  = match for_each l1 body w with
    | (Return _, w1) => for_each l2 body w1
    | (Raised e, w1) => (Raised e, w1)
    end.
Proof.
  revert w. induction l1 as [|x l1 IH]; intros w; [done|].
  cbn [app for_each]. unfold bind.
  destruct (body x w) as [[[]|e] w1]; [apply IH|done].
Qed.

(** The scan returns and leaves the files and the configuration alone. *)
Lemma get_local_videos_returns (channel : Channel) (w : world) :
  ∃ found w1,
    Archiver.get_local_videos channel w = (Return found, w1)
    ∧ fs w1 = fs w ∧ config w1 = config w ∧ config_file w1 = config_file w.
Proof.
  destruct (fs w !! name channel) as [entries|] eqn:Hd.
  - destruct (get_local_videos_listed channel w entries Hd) as (found & -> & _).
    by exists found, w.
  - rewrite get_local_videos_unlisted by done. by eexists _, _.
Qed.

(** A remote lookup that raises ends the sync of the channel before any
    download or deletion. *)
Lemma sync_channel_raises (channel : Channel) (w : world) (e : exn) :
  Archiver.latest_videos_from (keep channel) 0 (get_channel (id channel)) ∅
  = Raised e →
  ∃ w2,
    Archiver.sync_channel channel w = (Raised e, w2)
    ∧ fs w2 = fs w ∧ config w2 = config w ∧ config_file w2 = config_file w.
Proof.
  intros Hraise.
  destruct (get_local_videos_returns channel w)
    as (found & w1 & Hrun & Hfs & Hc & Hf).
  exists w1. split; [|done].
  unfold Archiver.sync_channel, bind. rewrite Hrun.
  unfold Archiver.get_latest_videos. by rewrite Hraise.
Qed.
End SyncAll.

(** C6 (as amended): [sync] goes through the configured channels in order,
    one after the other; when the remote lookup of a channel raises, the
    exception ends the sync of that channel before any download or
    deletion and ends the run: the channels before it are synced, the
    channels after it are not, and the command does not return. *)
Theorem sync_stops_at_failure `{!Externals} (w : world)
    (before after : list Channel) (channel : Channel) (e : exn) :
  default [] (channels_key (config w)) = before ++ channel :: after →
  Archiver.latest_videos_from (keep channel) 0 (get_channel (id channel)) ∅
  = Raised e →
  Archiver.sync w
  = for_each (default [] (channels_key (config w))) Archiver.sync_channel w
  ∧ (∀ w1, for_each before Archiver.sync_channel w = (Return tt, w1) →
           ∃ w2, Archiver.sync w = (Raised e, w2) ∧ fs w2 = fs w1)
  ∧ (∀ w1, for_each before CLI.sync_one w = (Return tt, w1) →
           ∃ w2, CLI.sync w = (Raised e, w2) ∧ fs w2 = fs w1).
Proof.
  intros Hchs Hraise. split_and!; [done|..].
  - intros w1 Hbefore.
    destruct (sync_channel_raises channel w1 e Hraise) as (w2 & Hrun & Hfs & _).
    exists w2. split; [|done].
    unfold Archiver.sync, Config.channels, bind, get. rewrite Hchs.
    rewrite for_each_app, Hbefore. cbn [for_each]. unfold bind.
    by rewrite Hrun.
  - intros w1 Hbefore.
    destruct (sync_channel_raises channel
                (set_stdout (stdout w1 ++ [SyncingChannel (name channel)]) w1)
                e Hraise) as (w2 & Hrun & Hfs & _).
    exists w2. split; [|done].
    unfold CLI.sync, Archiver.channels, Config.channels, bind at 1 2, get.
    rewrite Hchs. rewrite for_each_app, Hbefore. cbn [for_each].
    unfold bind, CLI.sync_one at 1, bind, print, modify. by rewrite Hrun.
Qed.

Lemma sync_stops_at_failure_witness :
  ∃ w2,
    @Archiver.sync Example.externals Example.w0
    = (Raised (RemoteLookupError Example.UCbad), w2)
    ∧ fs w2 = fs Example.w0.
Proof.
  apply (proj1 (proj2 (@sync_stops_at_failure Example.externals Example.w0 []
                         [Example.good] Example.bad
                         (RemoteLookupError Example.UCbad)
                         eq_refl eq_refl))).
  reflexivity.
Defined.

(** C6 as stated fails: with the channels [bad] and [good] stored in this
    order, the lookup of [bad] raises and both [sync] commands end with the
    exception; the directory of [good] is as before (the scan still gives
    [v1] and [v2]), whereas the sync of [good] alone brings it to the
    remote window [v3], [v2]. *)
Lemma sync_failure_skips_later_channels :
  (@Archiver.sync Example.externals Example.w0).1
  = Raised (RemoteLookupError Example.UCbad)
  ∧ (@CLI.sync Example.externals Example.w0).1
    = Raised (RemoteLookupError Example.UCbad)
  ∧ fs (@Archiver.sync Example.externals Example.w0).2 = fs Example.w0
  ∧ fs (@CLI.sync Example.externals Example.w0).2 = fs Example.w0
  ∧ (@Archiver.get_local_videos Example.externals Example.good
       (@Archiver.sync Example.externals Example.w0).2).1
    = Return {[Example.v1; Example.v2]}
  ∧ (@Archiver.get_local_videos Example.externals Example.good
       (@Archiver.sync_channel Example.externals Example.good Example.w0).2).1
    = Return {[Example.v3; Example.v2]}.
Proof. split_and!; vm_compute; reflexivity. Qed.

(** * Further properties of the code *)

(** ** Adding channels *)



(** X2: on a configuration that has the key ["channels"], adding a channel
    whose id is not stored returns [True] (exit code 0); afterwards
    [channels()] is the former list with the new channel at its end, and
    the file holds the same document as the memory. *)
Theorem add_then_channels (w : world) (new : Channel) (chs : list Channel) :
  channels_key (config w) = Some chs →
  (∀ ch, ch ∈ chs → id ch ≠ id new) →
  ∃ w',
    CLI.add new w = (Return 0%Z, w')
    ∧ Config.channels w' = (Return (chs ++ [new]), w')
    ∧ config_file w' = config w'
    ∧ fs w' = fs w ∧ stdout w' = stdout w.
Proof.
  intros Hkey Hfresh.
  destruct (add_fresh_channel w new chs Hkey Hfresh) as [_ Hadd].
  eexists. split; [exact Hadd|]. done.
Qed.

Lemma add_then_channels_witness :
  ∃ w',
    CLI.add (MkChannel (of_string "new") (of_string "UCnew") None) Example.w0
    = (Return 0%Z, w')
    ∧ Config.channels w'
      = (Return ([Example.bad; Example.good]
                 ++ [MkChannel (of_string "new") (of_string "UCnew") None]), w')
    ∧ config_file w' = config w'
    ∧ fs w' = fs Example.w0 ∧ stdout w' = stdout Example.w0.
Proof.
  apply (add_then_channels Example.w0
           (MkChannel (of_string "new") (of_string "UCnew") None)
           [Example.bad; Example.good]).
  - reflexivity.
  - intros ch [->|[->|[]%elem_of_nil]%elem_of_cons]%elem_of_cons; discriminate.
Defined.

(** X3: [add_channel] keeps the stored ids distinct and keeps the file
    equal to the document in memory, whatever it returns. *)
Theorem add_channel_invariants (w w' : world) (new : Channel) (added : bool) :
  Archiver.add_channel new w = (Return added, w') →
  (NoDup (id <$> default [] (channels_key (config w))) →
   NoDup (id <$> default [] (channels_key (config w'))))
  ∧ (config_file w = config w → config_file w' = config w').
Proof.
  unfold Archiver.add_channel, Config.add_channel, Config.channels,
    Config.append_channel, Config.save, bind, get, print, modify, ret.
  destruct (channels_key (config w)) as [chs|] eqn:Hkey.
  - change (default [] (Some chs)) with chs.
    destruct (Config.first_with_id (id new) chs) as [ch|] eqn:Hfirst.
    + intros [= <- <-]. cbn. by rewrite Hkey.
    + rewrite Hkey. intros [= <- <-]. cbn. split; [|done].
      intros Hnodup. rewrite fmap_app. apply NoDup_app. split_and!; [done| |].
      * intros i Hi [->|[]%elem_of_nil]%elem_of_cons.
        apply list_elem_of_fmap in Hi as (ch & Hid & Hin).
        by apply (proj1 (first_with_id_None (id new) chs) Hfirst ch Hin).
      * apply NoDup_singleton.
  - change (default [] None) with (@nil Channel). cbn [Config.first_with_id].
    rewrite Hkey. intros [= <- <-]. cbn. by rewrite Hkey.
Qed.

Lemma add_channel_invariants_witness :
  (NoDup (id <$> default [] (channels_key (config Example.w0))) →
   NoDup (id <$> default [] (channels_key (config
     (Archiver.add_channel (MkChannel (of_string "new") (of_string "UCnew") None)
        Example.w0).2))))
  ∧ (config_file Example.w0 = config Example.w0 →
     config_file (Archiver.add_channel
                    (MkChannel (of_string "new") (of_string "UCnew") None)
                    Example.w0).2
     = config (Archiver.add_channel
                 (MkChannel (of_string "new") (of_string "UCnew") None)
                 Example.w0).2).
Proof.
  apply (add_channel_invariants Example.w0 _
           (MkChannel (of_string "new") (of_string "UCnew") None) true).
  reflexivity.
Defined.

(** ** The search *)

Section SearchResults.
Context `{!Externals}.

Lemma yt_channel_search_from_spec (seen : gset (option (list N)))
    (raws : feed raw_result) :
  NoDup (YTApi.sr_id <$> yielded (YTApi.channel_search_from seen raws))
  ∧ (∀ i, i ∈ (YTApi.sr_id <$> yielded (YTApi.channel_search_from seen raws)) ↔
          (i ∉ seen) ∧ ∃ raw, raw ∈ yielded raws ∧ YTApi.is_channel raw = true
                            ∧ YTApi.channel_id raw = i)
  ∧ (∀ r, r ∈ yielded (YTApi.channel_search_from seen raws) →
          ∃ raw, raw ∈ yielded raws ∧ YTApi.is_channel raw = true
                 ∧ r = YTApi.MkSearchResult (YTApi.channel_id raw)
                         (YTApi.channel_name raw) (YTApi.channel_url raw)).
Proof.
  revert seen. induction raws as [raw rest IH| |e]; intros seen.
  - cbn [YTApi.channel_search_from yielded].
    destruct (IH seen) as (Hnd & Hids & Hres).
    destruct (IH ({[YTApi.channel_id raw]} ∪ seen)) as (Hnd' & Hids' & Hres').
    destruct (YTApi.is_channel raw) eqn:Hch; cbn [andb].
    + case_bool_decide as Hseen; cbn [yielded fmap list_fmap YTApi.sr_id].
      * split_and!.
        -- apply NoDup_cons. split; [|done].
           intros [Hn _]%Hids'. apply Hn, elem_of_union. left.
           by apply elem_of_singleton.
        -- intros i. rewrite elem_of_cons, Hids'. split.
           ++ intros [->|[Hn (raw' & Hin & Hc & Hi)]].
              ** split; [done|]. exists raw. split; [left|done].
              ** split.
                 --- intros Hs. apply Hn, elem_of_union. by right.
                 --- exists raw'. split; [by right|done].
           ++ intros [Hn (raw' & Hin & Hc & Hi)].
              destruct (decide (i = YTApi.channel_id raw)) as [->|Hne];
                [by left|right].
              split.
              ** intros [Hs%elem_of_singleton|Hs]%elem_of_union; done.
              ** apply elem_of_cons in Hin as [->|Hin]; [done|].
                 by exists raw'.
        -- intros r [->|Hr]%elem_of_cons.
           ++ exists raw. split; [left|done].
           ++ destruct (Hres' r Hr) as (raw' & Hin & Hc & ->).
              exists raw'. split; [by right|done].
      * split_and!; [done| |].
        -- intros i. rewrite Hids. split.
           ++ intros [Hn (raw' & Hin & Hc & Hi)]. split; [done|].
              exists raw'. split; [by right|done].
           ++ intros [Hn (raw' & Hin & Hc & Hi)]. split; [done|].
              apply elem_of_cons in Hin as [->|Hin]; [|by exists raw'].
              subst i. done.
        -- intros r Hr. destruct (Hres r Hr) as (raw' & Hin & Hc & ->).
           exists raw'. split; [by right|done].
    + split_and!; [done| |].
      * intros i. rewrite Hids. split.
        -- intros [Hn (raw' & Hin & Hc & Hi)]. split; [done|].
           exists raw'. split; [by right|done].
        -- intros [Hn (raw' & Hin & Hc & Hi)]. split; [done|].
           apply elem_of_cons in Hin as [->|Hin]; [congruence|by exists raw'].
      * intros r Hr. destruct (Hres r Hr) as (raw' & Hin & Hc & ->).
        exists raw'. split; [by right|done].
  - cbn. split_and!; [apply NoDup_nil_2| |].
    + intros i. split; [by intros ?%elem_of_nil|].
      by intros [_ (raw & ?%elem_of_nil & _)].
    + by intros r ?%elem_of_nil.
  - cbn. split_and!; [apply NoDup_nil_2| |].
    + intros i. split; [by intros ?%elem_of_nil|].
      by intros [_ (raw & ?%elem_of_nil & _)].
    + by intros r ?%elem_of_nil.
Qed.

Lemma channel_search_from_unbounded (n index : Z)
    (results : feed YTApi.SearchResult) :
  (n ≤ index)%Z → Archiver.channel_search_from n index results = results.
Proof.
  revert index. induction results as [result rest IH| |e]; intros index Hn;
    [|done..].
  cbn [Archiver.channel_search_from].
  destruct (index + 1 =? n)%Z eqn:Hstop; [apply Z.eqb_eq in Hstop; lia|].
  rewrite IH by lia. done.
Qed.

Lemma channel_search_from_yields (n index : Z)
    (items : list YTApi.SearchResult) (tl : feed YTApi.SearchResult) :
  (0 ≤ index)%Z → (index < n)%Z →
  Archiver.channel_search_from n index (yields items tl)
  = if decide (n ≤ index + Z.of_nat (length items))%Z
    then yields (take (Z.to_nat (n - 1 - index)) items) StopIteration
    else yields items
           (Archiver.channel_search_from n (index + Z.of_nat (length items)) tl).
Proof.
  revert index. induction items as [|a items IH]; intros index H0 Hn.
  - cbn [length yields foldr]. rewrite decide_False by (cbn; lia).
    by rewrite Z.add_0_r.
  - cbn [yields foldr Archiver.channel_search_from].
    change (foldr Yield tl items) with (yields items tl).
    destruct (index + 1 =? n)%Z eqn:Hstop.
    + apply Z.eqb_eq in Hstop. rewrite decide_True by (cbn [length]; lia).
      by replace (Z.to_nat (n - 1 - index)) with 0 by lia.
    + apply Z.eqb_neq in Hstop. rewrite IH by lia.
      case_decide as Hle.
      * rewrite decide_True by (cbn [length]; lia).
        replace (Z.to_nat (n - 1 - index))
          with (S (Z.to_nat (n - 1 - (index + 1)))) by lia.
        done.
      * rewrite decide_False by (cbn [length]; lia).
        cbn [yields foldr length]. unfold yields.
        replace (index + Z.of_nat (S (length items)))%Z
          with (index + 1 + Z.of_nat (length items))%Z by lia.
        done.
Qed.
End SearchResults.

(** X4: [YTApi.channel_search] yields no channel id twice; an id is yielded
    exactly when a result of the underlying search is a channel page with
    that id, and every yielded record is built from such a result. *)
Theorem yt_channel_search_unique `{!Externals} (term : list N) :
  NoDup (YTApi.sr_id <$> yielded (YTApi.channel_search term))
  ∧ (∀ i, i ∈ (YTApi.sr_id <$> yielded (YTApi.channel_search term)) ↔
          ∃ raw, raw ∈ yielded (get_search term)
                 ∧ YTApi.is_channel raw = true ∧ YTApi.channel_id raw = i)
  ∧ (∀ r, r ∈ yielded (YTApi.channel_search term) →
          ∃ raw, raw ∈ yielded (get_search term)
                 ∧ YTApi.is_channel raw = true
                 ∧ r = YTApi.MkSearchResult (YTApi.channel_id raw)
                         (YTApi.channel_name raw) (YTApi.channel_url raw)).
Proof.
  unfold YTApi.channel_search.
  destruct (yt_channel_search_from_spec ∅ (get_search term))
    as (Hnd & Hids & Hres).
  split_and!; [done| |done].
  intros i. rewrite Hids. split; [by intros [_ ?]|].
  intros Hraw. split; [apply not_elem_of_empty|done].
Qed.

(** X5: with [max_results] zero or negative the search of the archiver
    cuts nothing: it yields what [YTApi.channel_search] yields, and ends
    as it ends. *)
Theorem channel_search_unbounded `{!Externals} (term : list N) (n : Z) :
  (n ≤ 0)%Z →
  Archiver.channel_search term n = YTApi.channel_search term.
Proof. intros Hn. by apply channel_search_from_unbounded. Qed.

Lemma channel_search_unbounded_witness :
  @Archiver.channel_search Example.externals (of_string "rocq") 0
  = @YTApi.channel_search Example.externals (of_string "rocq").
Proof.
  apply (@channel_search_unbounded Example.externals (of_string "rocq") 0). lia.
Defined.

(** X6: for a positive [max_results] of [n] the search reads [n] results to
    yield [n - 1]: when the underlying search has [n] results the search
    ends normally after the first [n - 1], whatever follows them; when it
    raises before its [n]-th result the yielded results are followed by
    that exception. *)
Theorem channel_search_reads_one_more `{!Externals} (term : list N) (n : Z)
    (items : list YTApi.SearchResult) :
  (0 < n)%Z →
  (∀ tl, YTApi.channel_search term = yields items tl →
         Z.of_nat (length items) = n →
         Archiver.channel_search term n
         = yields (take (Z.to_nat (n - 1)) items) StopIteration)
  ∧ (∀ e, YTApi.channel_search term = yields items (Raises e) →
          (Z.of_nat (length items) < n)%Z →
          Archiver.channel_search term n = yields items (Raises e)).
Proof.
  intros Hn. unfold Archiver.channel_search. split.
  - intros tl -> Hlen. rewrite channel_search_from_yields by lia.
    rewrite decide_True by lia. by rewrite Z.sub_0_r.
  - intros e -> Hlen. rewrite channel_search_from_yields by lia.
    by rewrite decide_False by lia.
Qed.

Lemma channel_search_reads_one_more_witness :
  (∀ tl, @YTApi.channel_search Example.externals (of_string "rocq")
         = yields (yielded (@YTApi.channel_search Example.externals
                              (of_string "rocq"))) tl →
         Z.of_nat (length (yielded (@YTApi.channel_search Example.externals
                                      (of_string "rocq")))) = 6%Z →
         @Archiver.channel_search Example.externals (of_string "rocq") 6
         = yields (take (Z.to_nat (6 - 1))
                     (yielded (@YTApi.channel_search Example.externals
                                 (of_string "rocq")))) StopIteration)
  ∧ (∀ e, @YTApi.channel_search Example.externals (of_string "rocq")
          = yields (yielded (@YTApi.channel_search Example.externals
                               (of_string "rocq"))) (Raises e) →
          (Z.of_nat (length (yielded (@YTApi.channel_search Example.externals
                                        (of_string "rocq")))) < 6)%Z →
          @Archiver.channel_search Example.externals (of_string "rocq") 6
          = yields (yielded (@YTApi.channel_search Example.externals
                               (of_string "rocq"))) (Raises e)).
Proof.
  apply (@channel_search_reads_one_more Example.externals (of_string "rocq") 6).
  lia.
Defined.

(** ** The remote window at its edges *)

Section RemoteWindowEdges.
Context `{!Externals}.

Lemma latest_videos_from_raises (keep : option Z) (index : Z)
    (items : list video) (e : exn) (acc : gset (list N)) :
  (∀ k, keep = Some k →
        (index + Z.of_nat (length items) < k ∨ k ≤ index)%Z) →
  Archiver.latest_videos_from keep index (yields items (Raises e)) acc
  = Raised e.
Proof.
  revert index acc. induction items as [|a items IH]; intros index acc Hk;
    [done|].
  cbn [yields foldr Archiver.latest_videos_from].
  rewrite bool_decide_eq_false_2.
  - apply IH. intros k Hkeep. specialize (Hk k Hkeep). cbn [length] in Hk. lia.
  - intros Heq. specialize (Hk _ (eq_sym Heq)). cbn [length] in Hk. lia.
Qed.
End RemoteWindowEdges.

(** X7: a [keep] of zero or less bounds nothing: the count never meets it,
    and the window is the whole stream, as without [keep]. *)
Theorem get_latest_videos_keep_nonpositive `{!Externals} (channel : Channel)
    (w : world) (items : list video) (k : Z) :
  keep channel = Some k → (k ≤ 0)%Z →
  get_channel (id channel) = yields items StopIteration →
  Archiver.get_latest_videos channel w
  = (Return (list_to_set (videoId <$> items)), w).
Proof.
  intros Hkeep Hk Hfeed. unfold Archiver.get_latest_videos. f_equal.
  rewrite Hfeed, latest_videos_from_all.
  - f_equal. apply set_eq. intros v. rewrite elem_of_union, elem_of_empty. tauto.
  - intros k' Hk'. rewrite Hkeep in Hk'. injection Hk' as <-. lia.
Qed.

Lemma get_latest_videos_keep_nonpositive_witness :
  @Archiver.get_latest_videos Example.externals
    (MkChannel Example.chan Example.UCgood (Some 0%Z)) Example.w0
  = (Return (list_to_set (videoId <$> [Video Example.v3; Video Example.v2;
                                        Video Example.v1])), Example.w0).
Proof.
  apply (@get_latest_videos_keep_nonpositive Example.externals
           (MkChannel Example.chan Example.UCgood (Some 0%Z)) Example.w0
           [Video Example.v3; Video Example.v2; Video Example.v1] 0).
  - reflexivity.
  - lia.
  - reflexivity.
Defined.

(** X8: when the feed raises before the window is full, the lookup raises
    that exception: the ids read so far are dropped, and nothing else
    changes. *)
Theorem get_latest_videos_raises `{!Externals} (channel : Channel)
    (w : world) (items : list video) (e : exn) :
  get_channel (id channel) = yields items (Raises e) →
  (∀ k, keep channel = Some k → (Z.of_nat (length items) < k ∨ k ≤ 0)%Z) →
  Archiver.get_latest_videos channel w = (Raised e, w).
Proof.
  intros Hfeed Hk. unfold Archiver.get_latest_videos. f_equal.
  rewrite Hfeed. apply latest_videos_from_raises.
  intros k Hkeep. specialize (Hk k Hkeep). lia.
Qed.

Lemma get_latest_videos_raises_witness :
  @Archiver.get_latest_videos Example.externals Example.bad Example.w0
  = (Raised (RemoteLookupError Example.UCbad), Example.w0).
Proof.
  apply (@get_latest_videos_raises Example.externals Example.bad Example.w0 []).
  - reflexivity.
  - intros k Hk. discriminate Hk.
Defined.

(** ** The local scan, in full *)

Section LocalScanSize.
Context `{!Externals}.

Lemma scan_files_size (d : list N) (files : list (list N))
    (ids found : gset (list N)) (w w' : world)
    (entries : gmap (list N) attrs) :
  fs w !! d = Some entries →
  Archiver.scan_files d files ids w = (Return found, w') →
  size found ≤ size ids + length files.
Proof.
  intros Hd. revert ids. induction files as [|file files IH]; intros ids.
  - cbn. intros [= <- _]. lia.
  - cbn [Archiver.scan_files length]. unfold bind at 1.
    rewrite (scan_file_run _ _ _ _ _ Hd). intros Hrun%IH.
    destruct (scanned_id entries file) as [v|]; [|lia].
    assert (size ({[v]} ∪ ids) ≤ S (size ids)); [|lia].
    rewrite size_union_alt, size_singleton.
    assert (size (ids ∖ {[v]}) ≤ size ids); [|lia].
    apply subseteq_size. intros x. rewrite elem_of_difference. tauto.
Qed.
End LocalScanSize.

(** X9: on a directory that can be listed the scan returns, changes
    nothing, and finds exactly the ids parsed from the names of the entries
    that are regular files: other entries and other names are passed over.
    It finds no more ids than the directory has entries. *)
Theorem local_scan_spec `{!Externals} (channel : Channel) (w : world)
    (entries : gmap (list N) attrs) :
  fs w !! name channel = Some entries →
  ∃ found : gset (list N),
    Archiver.get_local_videos channel w = (Return found, w)
    ∧ (∀ v, v ∈ found ↔
            ∃ file a, entries !! file = Some a ∧ isfile a = true
                      ∧ Archiver.parse_filename file = Some v)
    ∧ size found ≤ size entries.
Proof.
  intros Hd.
  destruct (get_local_videos_listed channel w entries Hd)
    as (found & Hrun & Hfound).
  exists found. split_and!; [done| |].
  - intros v. rewrite Hfound. unfold scanned_id. split.
    + intros (file & Hs). destruct (entries !! file) as [a|] eqn:Ha; [|done].
      destruct (isfile a) eqn:Hf; [|done]. by exists file, a.
    + intros (file & a & Ha & Hf & Hp). exists file. by rewrite Ha, Hf.
  - pose proof Hrun as Hrun'.
    unfold Archiver.get_local_videos, bind, try_except, OS.listdir, ret in Hrun'.
    rewrite Hd in Hrun'.
    apply (scan_files_size _ _ _ _ _ _ entries Hd) in Hrun'.
    rewrite size_empty, length_fmap, length_map_to_list in Hrun'. lia.
Qed.

Lemma local_scan_spec_witness :
  ∃ found : gset (list N),
    @Archiver.get_local_videos Example.externals Example.good
      Example.purge_world = (Return found, Example.purge_world)
    ∧ (∀ v, v ∈ found ↔
            ∃ file a, Example.purge_entries !! file = Some a ∧ isfile a = true
                      ∧ @Archiver.parse_filename Example.externals file = Some v)
    ∧ size found ≤ size Example.purge_entries.
Proof.
  apply (@local_scan_spec Example.externals Example.good Example.purge_world
           Example.purge_entries).
  reflexivity.
Defined.

(** ** Names that the scan passes over *)

(** X10: a name whose last dot comes right after a word character is never
    counted as a video, whatever stands before that character and after
    the dot: so [Title [id].mp4.part], [thumb.jpg] and [thumb.j-pg] are
    passed over. *)
Theorem suffix_after_word_not_parsed `{!Externals} (stem rest : list N)
    (c : N) :
  Re.is_word c = true →
  c_dot ∉ rest →
  Archiver.parse_filename (stem ++ [c; c_dot] ++ rest) = None.
Proof.
  intros Hc Hrest.
  destruct (Archiver.parse_filename (stem ++ [c; c_dot] ++ rest)) as [v|] eqn:Hp;
    [|done].
  exfalso. apply parse_filename_spec in Hp.
  assert (∃ tail, Re.at_end tail = true
                  ∧ bracket_id_name (stem ++ [c; c_dot] ++ rest) v tail)
    as (tail & Hend & title & ext & Heq & _ & _ & _ & Hext).
  { destruct Hp; [exists []|exists [c_newline]]; done. }
  set (p := λ x : N, negb (x =? c_dot)%N).
  assert (Forall (λ x, p x = true) rest) as Hp1.
  { apply Forall_forall. intros x Hx. unfold p.
    apply negb_true_iff, N.eqb_neq. by intros ->. }
  assert (Forall (λ x, p x = true) (ext ++ tail)) as Hp2.
  { apply Forall_app. split.
    - eapply Forall_impl; [exact Hext|]. intros x Hx. unfold p.
      apply negb_true_iff, N.eqb_neq. intros ->.
      by rewrite is_word_dot in Hx.
    - destruct (at_end_cases _ Hend) as [->| ->]; by repeat constructor. }
  replace (stem ++ [c; c_dot] ++ rest) with ((stem ++ [c]) ++ c_dot :: rest)
    in Heq by (by rewrite <- app_assoc).
  replace (title ++ [c_lbracket] ++ v ++ [c_rbracket; c_dot] ++ ext ++ tail)
    with ((title ++ [c_lbracket] ++ v ++ [c_rbracket]) ++ c_dot :: ext ++ tail)
    in Heq by (by rewrite <- !app_assoc).
  apply (split_unique p) in Heq as (Heq & _ & _); try done.
  rewrite !app_assoc in Heq. apply app_inj_tail in Heq as [_ ->].
  discriminate Hc.
Qed.

Lemma suffix_after_word_not_parsed_witness :
  @Archiver.parse_filename Example.externals
    (of_string "Title [abc].mp" ++ [52%N; c_dot] ++ of_string "par-t") = None.
Proof.
  apply (@suffix_after_word_not_parsed Example.externals
           (of_string "Title [abc].mp") (of_string "par-t") 52%N).
  - reflexivity.
  - intros Hin. repeat (apply elem_of_cons in Hin as [Hin|Hin];
                        [discriminate Hin|]).
    by apply elem_of_nil in Hin.
Defined.

(** ** What the purge never does *)






(** ** The sync of one channel *)

Section SyncChannel.
Context `{!Externals}.



End SyncChannel.

(** X13: a channel that is in sync is left alone: when the scan gives the
    remote window, the sync runs no download and no deletion, and the files
    and the configuration are as before. *)
Theorem sync_channel_in_sync `{!Externals} (channel : Channel) (w w1 : world)
    (L : gset (list N)) :
  Archiver.get_local_videos channel w = (Return L, w1) →
  Archiver.get_latest_videos channel w1 = (Return L, w1) →
  Archiver.sync_channel channel w = (Return tt, w1)
  ∧ fs w1 = fs w ∧ config w1 = config w ∧ config_file w1 = config_file w.
Proof.
  intros Hlocal Hlatest. split.
  - unfold Archiver.sync_channel, bind. rewrite Hlocal, Hlatest.
    unfold Archiver.new_videos, Archiver.old_videos,
      Archiver.download_videos, Archiver.cleanup_videos.
    by rewrite difference_diag_L, elements_empty.
  - destruct (get_local_videos_returns channel w)
      as (found & w1' & Hrun & Hfs & Hc & Hf).
    rewrite Hrun in Hlocal. by injection Hlocal as <- <-.
Qed.

Lemma sync_channel_in_sync_witness :
  @Archiver.sync_channel Example.externals Example.good Example.synced_world
  = (Return tt, Example.synced_world)
  ∧ fs Example.synced_world = fs Example.synced_world
  ∧ config Example.synced_world = config Example.synced_world
  ∧ config_file Example.synced_world = config_file Example.synced_world.
Proof.
  apply (@sync_channel_in_sync Example.externals Example.good
           Example.synced_world Example.synced_world
           {[Example.v3; Example.v2]}).
  - vm_compute. reflexivity.
  - vm_compute. reflexivity.
Defined.



(** ** The sync of all channels *)

Section SyncReturns.
Context `{!Externals}.

End SyncReturns.



(** ** The commands [search] and [status] *)

Section Commands.
Context `{!Externals}.

Lemma table_rows_yields (results : list YTApi.SearchResult)
    (tl : feed YTApi.SearchResult)
    (rows : list (option (list N) * list N * option (list N))) :
  CLI.table_rows (yields results tl) rows
  = CLI.table_rows tl (rows ++ (search_row <$> results)).
Proof.
  revert rows. induction results as [|r results IH]; intros rows.
  - cbn. by rewrite app_nil_r.
  - cbn [yields foldr CLI.table_rows].
    change (foldr Yield tl results) with (yields results tl).
    rewrite IH. cbn [fmap list_fmap]. by rewrite <- app_assoc.
Qed.


End Commands.

(** X16: [search] prints the line [Searching..] and shows at most four
    results.  When the channel search ends or has five results, the
    command then prints one table with the rows of the first four
    results, in order, and returns 0; when the channel search raises
    before its fifth result, the command raises after that line and
    prints no table. *)
Theorem cli_search_table `{!Externals} (term : list N) (w : world)
    (results : list YTApi.SearchResult) :
  (∀ tl, YTApi.channel_search term = yields results tl →
         tl = StopIteration ∨ 5 ≤ length results →
         CLI.search term w
         = (Return 0%Z,
            set_stdout (stdout w
                        ++ [Searching;
                            SearchTable (search_row <$> take 4 results)]) w))
  ∧ (∀ e, YTApi.channel_search term = yields results (Raises e) →
          length results < 5 →
          CLI.search term w
          = (Raised e, set_stdout (stdout w ++ [Searching]) w)).
Proof.
  unfold CLI.search, Archiver.channel_search, Archiver.default_max_results,
    bind, print, modify, ret.
  split.
  - intros tl -> Htl. rewrite channel_search_from_yields by lia.
    case_decide as Hlen.
    + rewrite table_rows_yields. cbn. by rewrite <- app_assoc.
    + destruct Htl as [->|Hge]; [|lia].
      rewrite table_rows_yields. cbn [Archiver.channel_search_from CLI.table_rows].
      rewrite take_ge by lia. cbn. by rewrite <- app_assoc.
  - intros e -> Hlen. rewrite channel_search_from_yields by lia.
    rewrite decide_False by lia. by rewrite table_rows_yields.
Qed.

Lemma cli_search_table_witness :
  @CLI.search Example.externals (of_string "rocq") Example.w0
  = (Return 0%Z,
     set_stdout
       (stdout Example.w0
        ++ [Searching;
            SearchTable
              (search_row
                 <$> take 4 (yielded (@YTApi.channel_search Example.externals
                                        (of_string "rocq"))))])
       Example.w0).
Proof.
  apply (proj1 (@cli_search_table Example.externals (of_string "rocq")
                  Example.w0
                  (yielded (@YTApi.channel_search Example.externals
                              (of_string "rocq"))))
           StopIteration).
  - reflexivity.
  - by left.
Defined.


(** ** An empty remote window *)

Section EmptyWindow.
Context `{!Externals}.

End EmptyWindow.


